(** * cachekit: a shallow embedding of the expiring key/value cache

    The development follows the Go sources of the repository:
    the single cache ([New], [removeExpiredEntries], [Get],
    [GetWithExpiration], [Add], [Set], [Delete], [Flush], [Length]) with
    its tracked list of expiring keys, and the sharded cache of
    [shardcache.go] ([NewShardedCache], [getShard] and the delegating
    methods).

    Conventions of the embedding.
    - The cache is a record that is passed in and returned: every method
      of the Go type takes the read/write mutex for its whole body, so a
      run of the program is a sequence of whole method bodies and of whole
      sweep passes.
    - The clock is an argument: [now] is what [time.Now()] returns inside
      the call.  [Add] and [Set] read the clock twice, but each path keeps
      the result of one reading only.
    - A run-time panic is the [Panic] case of [result]. *)

From Stdlib Require Import ZArith String Ascii List Lia.
From stdpp Require Import gmap strings list fin_maps.

Local Open Scope Z_scope.

(** ** The parts of Go's [time] package that the cache uses *)

(** A [time.Duration] is a signed count of nanoseconds. *)
Definition Duration := Z.

(** An instant, as nanoseconds since the Unix epoch.  Go keeps seconds and
    nanoseconds apart, so the arithmetic below does not wrap for any
    instant a clock can return. *)
Definition Time := Z.

Definition Nanosecond : Duration := 1.
Definition Millisecond : Duration := 1000000 * Nanosecond.
Definition Second : Duration := 1000 * Millisecond.

(** [t.Add(d)] *)
Definition time_Add (t : Time) (d : Duration) : Time := t + d.

(** [t.Unix()]: whole seconds since the epoch, rounded down. *)
Definition time_Unix (t : Time) : Z := t / Second.

(** [time.Unix(sec, 0)] *)
Definition time_FromUnix (sec : Z) : Time := sec * Second.

(** [time.Time{}], the zero instant: 1 January of year 1, UTC. *)
Definition time_Zero : Time := time_FromUnix (-62135596800).

(** ** The parts of Go's [slices] package that the cache uses *)

(** [slices.Index]: the position of the first occurrence, or -1. *)
Fixpoint slices_Index_from (i : Z) (s : list string) (v : string) : Z :=
  match s with
  | [] => -1
  | x :: s' => if decide (v = x) then i else slices_Index_from (i + 1) s' v
  end.

Definition slices_Index (s : list string) (v : string) : Z :=
  slices_Index_from 0 s v.

(** [slices.Contains] *)
Definition slices_Contains (s : list string) (v : string) : bool :=
  bool_decide (0 ≤ slices_Index s v).

(** [removeByValue]: [append(s[:index], s[index+1:]...)] when the value
    occurs.  The caller stores the result back into the only reference to
    the slice, so the in-place [append] is a list without that position. *)
Definition removeByValue (s : list string) (value : string) : list string :=
  let index := slices_Index s value in
  if decide (index ≠ -1)
  then take (Z.to_nat index) s ++ drop (Z.to_nat (index + 1)) s
  else s.

(** ** The cache *)

Definition DefaultExpirationTime : Duration := 0.
Definition NoExpirationTime : Duration := -1.

(** An [error] value: [None] is [nil], [Some msg] carries the message of
    [fmt.Errorf]. *)
Definition error := option string.

Section CacheModel.
(** The stored payload is an [interface{}]: [None] is the nil interface,
    [Some v] a value of any dynamic type. *)
Context {V : Type}.

Definition any : Type := option V.

Record entry : Type := mkEntry {
  Content : any;
  ExpirationTimestamp : Z
}.

Record Cache : Type := mkCache {
  expirationTime : Duration;
  cleanupTime : Duration;
  nextCleanupTime : Z;
  expiringKeys : list string;
  entries : gmap string entry
}.

(** [New] returns the cache and whether [go Cache.cleanUpCache()] was
    executed. *)
Definition New (expirationTime cleanupTime : Duration) (now : Time)
  : Cache * bool :=
  let entries : gmap string entry := ∅ in
  let Cache := {|
    expirationTime := expirationTime;
    cleanupTime := cleanupTime;
    nextCleanupTime := time_Unix (time_Add now cleanupTime);
    expiringKeys := [];
    entries := entries
  |} in
  (Cache,
   bool_decide (cleanupTime ≠ 0) && bool_decide (cleanupTime ≠ NoExpirationTime)).

(** One iteration of the loop over [Cache.expiringKeys]; the state is the
    map being mutated and [remainingKeys]. *)
Definition sweepKey (currentTimestamp : Z)
    (st : gmap string entry * list string) (key : string)
  : gmap string entry * list string :=
  match st.1 !! key with
  | None => st
  | Some entry =>
      if bool_decide (ExpirationTimestamp entry < currentTimestamp)
         && bool_decide (ExpirationTimestamp entry ≠ NoExpirationTime)
      then (delete key st.1, st.2)
      else (st.1, st.2 ++ [key])
  end.

Definition removeExpiredEntries (c : Cache) (now : Time) : Cache :=
  let currentTimestamp := time_Unix now in
  let st := foldl (sweepKey currentTimestamp) (entries c, []) (expiringKeys c) in
  {| expirationTime := expirationTime c;
     cleanupTime := cleanupTime c;
     nextCleanupTime := nextCleanupTime c;
     expiringKeys := st.2;
     entries := st.1 |}.

Definition Get (c : Cache) (key : string) : any * bool :=
  match entries c !! key with
  | None => (None, false)
  | Some entry => (Content entry, true)
  end.

Definition GetWithExpiration (c : Cache) (key : string) : any * Time * bool :=
  match entries c !! key with
  | None => (None, time_Zero, false)
  | Some entry =>
      (Content entry, time_FromUnix (ExpirationTimestamp entry), true)
  end.

(** The third argument is called [expirationTime] in the source; it is
    [ttl] here because the record field has that name. *)
Definition Add (c : Cache) (now : Time) (key : string) (content : any)
    (ttl : Duration) : Cache * error :=
  match entries c !! key with
  | Some _ =>
      (c, Some ("[Cachekit] entry " +:+ key +:+ " already exists in Cache"))
  | None =>
      let expiration := time_Unix (time_Add now ttl) in
      let expiration :=
        if decide (ttl = DefaultExpirationTime)
        then time_Unix (time_Add now (expirationTime c))
        else expiration in
      let keys :=
        if decide (expiration ≤ nextCleanupTime c)
        then expiringKeys c ++ [key]
        else expiringKeys c in
      let entry := {| Content := content; ExpirationTimestamp := expiration |} in
      ({| expirationTime := expirationTime c;
          cleanupTime := cleanupTime c;
          nextCleanupTime := nextCleanupTime c;
          expiringKeys := keys;
          entries := <[key := entry]> (entries c) |}, None)
  end.

Definition Set_ (c : Cache) (now : Time) (key : string) (content : any)
    (ttl : Duration) : Cache :=
  let expiration := time_Unix (time_Add now ttl) in
  let expiration :=
    if decide (ttl = DefaultExpirationTime)
    then time_Unix (time_Add now (expirationTime c))
    else expiration in
  let keys :=
    if slices_Contains (expiringKeys c) key
    then removeByValue (expiringKeys c) key
    else expiringKeys c in
  let keys :=
    if decide (expiration ≤ nextCleanupTime c)
    then keys ++ [key]
    else keys in
  let entry := {| Content := content; ExpirationTimestamp := expiration |} in
  {| expirationTime := expirationTime c;
     cleanupTime := cleanupTime c;
     nextCleanupTime := nextCleanupTime c;
     expiringKeys := keys;
     entries := <[key := entry]> (entries c) |}.

Definition Delete (c : Cache) (key : string) : Cache * error :=
  match entries c !! key with
  | None =>
      (c, Some ("[Cachekit] could not find key " +:+ key +:+ " in Cache"))
  | Some _ =>
      let keys :=
        if slices_Contains (expiringKeys c) key
        then removeByValue (expiringKeys c) key
        else expiringKeys c in
      ({| expirationTime := expirationTime c;
          cleanupTime := cleanupTime c;
          nextCleanupTime := nextCleanupTime c;
          expiringKeys := keys;
          entries := delete key (entries c) |}, None)
  end.

Definition Flush (c : Cache) : Cache :=
  {| expirationTime := expirationTime c;
     cleanupTime := cleanupTime c;
     nextCleanupTime := nextCleanupTime c;
     expiringKeys := [];
     entries := ∅ |}.

Definition Length (c : Cache) : Z := Z.of_nat (size (entries c)).
End CacheModel.

Arguments any : clear implicits.
Arguments entry : clear implicits.
Arguments Cache : clear implicits.

(** ** Runs of one cache

    What happens to one cache after [New] is a sequence of method calls
    and sweep passes, each under the write lock.  [OpSweep now] is one
    iteration of the loop of [cleanUpCache]. *)

Inductive op (V : Type) : Type :=
  | OpAdd (now : Time) (key : string) (content : any V) (ttl : Duration)
  | OpSet (now : Time) (key : string) (content : any V) (ttl : Duration)
  | OpDelete (key : string)
  | OpFlush
  | OpSweep (now : Time).

Arguments OpAdd {V} now key content ttl.
Arguments OpSet {V} now key content ttl.
Arguments OpDelete {V} key.
Arguments OpFlush {V}.
Arguments OpSweep {V} now.

Definition step {V : Type} (c : Cache V) (o : op V) : Cache V :=
  match o with
  | OpAdd now key content ttl => (Add c now key content ttl).1
  | OpSet now key content ttl => Set_ c now key content ttl
  | OpDelete key => (Delete c key).1
  | OpFlush => Flush c
  | OpSweep now => removeExpiredEntries c now
  end.

Definition run {V : Type} (c : Cache V) (ops : list (op V)) : Cache V :=
  foldl step c ops.

(** The operations that overwrite or remove the entry of [key]. *)
Definition touches {V : Type} (key : string) (o : op V) : Prop :=
  match o with
  | OpSet _ k _ _ => k = key
  | OpDelete k => k = key
  | OpFlush => True
  | OpAdd _ _ _ _ | OpSweep _ => False
  end.

(** ** Panics *)

Inductive result (A : Type) : Type :=
  | Ok (a : A)
  | Panic (msg : string).

Arguments Ok {A} a.
Arguments Panic {A} msg.

(** [cleanUpCache], for the ticks delivered so far.  [time.NewTicker]
    panics when its interval is not positive. *)
Definition cleanUpCache {V : Type} (c : Cache V) (ticks : list Time)
  : result (Cache V) :=
  if decide (cleanupTime c ≤ 0)
  then Panic "non-positive interval for NewTicker"
  else Ok (foldl removeExpiredEntries c ticks).

(** ** The 32-bit FNV-1 hash of [hash/fnv] *)

Definition offset32 : Z := 2166136261.
Definition prime32 : Z := 16777619.

(** Conversion to [uint32]. *)
Definition uint32 (n : Z) : Z := n `mod` 2 ^ 32.

(** One byte of the [Write] method of [sum32]:
    [hash *= prime32; hash ^= sum32(c)]. *)
Definition fnv32_byte (hash : Z) (c : ascii) : Z :=
  Z.lxor (uint32 (hash * prime32)) (Z.of_N (N_of_ascii c)).

(** [h := fnv.New32(); h.Write([]byte(key)); h.Sum32()] *)
Definition fnv32 (key : string) : Z :=
  foldl fnv32_byte offset32 (list_ascii_of_string key).

(** ** The sharded cache *)

Record ShardedCache (V : Type) : Type := mkShardedCache {
  shards : list (Cache V);
  shardCount : Z
}.

Arguments mkShardedCache {V} shards shardCount.
Arguments shards {V} s.
Arguments shardCount {V} s.

Section ShardedModel.
Context {V : Type}.

(** [make([]*Cache, shardCount)] panics for a negative length; the loop
    then calls [New] once per index, [clock i] being the clock when
    shard [i] is built.  [shardCount] is an [int] (64 bits). *)
Definition NewShardedCache (shardCount : Z) (expirationTime cleanupTime : Duration)
    (clock : nat → Time) : result (ShardedCache V) :=
  if decide (shardCount < 0)
  then Panic "makeslice: len out of range"
  else
    let shards :=
      (λ i, (New expirationTime cleanupTime (clock i)).1)
        <$> seq 0 (Z.to_nat shardCount) in
    Ok {| shards := shards; shardCount := shardCount |}.

(** The index computed by [getShard]:
    [hash.Sum32() % uint32(shardedCache.shardCount)]. *)
Definition shardIndex (shardCount : Z) (key : string) : result Z :=
  let hash := fnv32 key in
  if decide (uint32 shardCount = 0)
  then Panic "integer divide by zero"
  else Ok (hash `mod` uint32 shardCount).

(** [getShard] returns a pointer into [shards]: the index and the cache
    found there. *)
Definition getShard (sc : ShardedCache V) (key : string)
  : result (nat * Cache V) :=
  match shardIndex (shardCount sc) key with
  | Panic msg => Panic msg
  | Ok i =>
      match shards sc !! Z.to_nat i with
      | None => Panic "index out of range"
      | Some shard => Ok (Z.to_nat i, shard)
      end
  end.

(** Writing through the pointer returned by [getShard]. *)
Definition setShard (sc : ShardedCache V) (i : nat) (shard : Cache V)
  : ShardedCache V :=
  {| shards := <[i := shard]> (shards sc); shardCount := shardCount sc |}.

Definition ShardedCache_Get (sc : ShardedCache V) (key : string)
  : result (any V * bool) :=
  match getShard sc key with
  | Panic msg => Panic msg
  | Ok (_, shard) => Ok (Get shard key)
  end.

Definition ShardedCache_GetWithExpiration (sc : ShardedCache V) (key : string)
  : result (any V * Time * bool) :=
  match getShard sc key with
  | Panic msg => Panic msg
  | Ok (_, shard) => Ok (GetWithExpiration shard key)
  end.

Definition ShardedCache_Add (sc : ShardedCache V) (now : Time) (key : string)
    (content : any V) (ttl : Duration) : result (ShardedCache V * error) :=
  match getShard sc key with
  | Panic msg => Panic msg
  | Ok (i, shard) =>
      let r := Add shard now key content ttl in
      Ok (setShard sc i r.1, r.2)
  end.

Definition ShardedCache_Set (sc : ShardedCache V) (now : Time) (key : string)
    (content : any V) (ttl : Duration) : result (ShardedCache V) :=
  match getShard sc key with
  | Panic msg => Panic msg
  | Ok (i, shard) => Ok (setShard sc i (Set_ shard now key content ttl))
  end.

Definition ShardedCache_Delete (sc : ShardedCache V) (key : string)
  : result (ShardedCache V * error) :=
  match getShard sc key with
  | Panic msg => Panic msg
  | Ok (i, shard) =>
      let r := Delete shard key in
      Ok (setShard sc i r.1, r.2)
  end.

(** [for i := 0; i < shardCount; i++ { shards[i].Flush() }] *)
Fixpoint flushFrom (n : nat) (i : nat) (l : list (Cache V))
  : result (list (Cache V)) :=
  match n with
  | O => Ok l
  | S n' =>
      match l !! i with
      | None => Panic "index out of range"
      | Some shard => flushFrom n' (S i) (<[i := Flush shard]> l)
      end
  end.

Definition ShardedCache_Flush (sc : ShardedCache V) : result (ShardedCache V) :=
  match flushFrom (Z.to_nat (shardCount sc)) 0 (shards sc) with
  | Panic msg => Panic msg
  | Ok l => Ok {| shards := l; shardCount := shardCount sc |}
  end.
End ShardedModel.

(** The timestamp that [Add] and [Set] compute, as one expression (see
    [Add_stores] and [Set_stores]). *)
Definition storedExpiration (defaultTTL : Duration) (now : Time) (ttl : Duration) : Z :=
  if decide (ttl = DefaultExpirationTime)
  then time_Unix (time_Add now defaultTTL)
  else time_Unix (time_Add now ttl).

(** ** The rules the specification states, for comparison *)

(** The TTL rule of the specification:
    [if ttlOverride == USE_DEFAULT: now + defaultTTL;
     elif ttlOverride == NEVER: NEVER_SENTINEL; else: now + ttlOverride]. *)
Definition specExpiresAt (defaultTTL : Duration) (now : Time) (ttlOverride : Duration) : Z :=
  if decide (ttlOverride = DefaultExpirationTime)
  then time_Unix (time_Add now defaultTTL)
  else if decide (ttlOverride = NoExpirationTime)
  then NoExpirationTime
  else time_Unix (time_Add now ttlOverride).

(** The test of the sweep: expired and not the "never" sentinel. *)
Definition expired {V : Type} (currentTimestamp : Z) (e : entry V) : Prop :=
  ExpirationTimestamp e < currentTimestamp ∧ ExpirationTimestamp e ≠ NoExpirationTime.

#[global] Instance expired_dec {V : Type} ts (e : entry V) : Decision (expired ts e).
Proof. unfold expired. apply _. Defined.

(** The entry of [k] in [m] is one the sweep deletes at [ts]. *)
Definition expiredIn {V : Type} (ts : Z) (m : gmap string (entry V)) (k : string) : Prop :=
  match m !! k with
  | Some e => expired ts e
  | None => False
  end.

(** The entry of [k] in [m] is one the sweep keeps at [ts]. *)
Definition keptIn {V : Type} (ts : Z) (m : gmap string (entry V)) (k : string) : Prop :=
  match m !! k with
  | Some e => ¬ expired ts e
  | None => False
  end.

#[global] Instance expiredIn_dec {V : Type} ts (m : gmap string (entry V)) k :
  Decision (expiredIn ts m k).
Proof. unfold expiredIn. destruct (m !! k); apply _. Defined.

#[global] Instance keptIn_dec {V : Type} ts (m : gmap string (entry V)) k :
  Decision (keptIn ts m k).
Proof. unfold keptIn. destruct (m !! k); apply _. Defined.

(** The invariant of the tracked keys: no key is listed twice, and every
    listed key has an entry. *)
Definition tracked_ok {V : Type} (c : Cache V) : Prop :=
  NoDup (expiringKeys c) ∧ ∀ k, k ∈ expiringKeys c → is_Some (entries c !! k).

(** ** Runs of a sharded cache

    The callers' operations on the sharded cache, and [SSweep i now]: the
    sweep task of shard [i] takes its next step at clock [now].
    [NewShardedCache] drops the flag that [New] returns, but the flag is a
    function of the interval kept in the shard ([sweepTaskStarted]): a
    shard whose interval is 0 or -1 has no task, and the step does
    nothing; otherwise the task goes through [cleanUpCache], which panics
    in [time.NewTicker] for an interval that is not positive, and sweeps
    the shard at the tick for a positive one.  A panic in the task ends
    the process like a panic in a caller.  A run stops at the first
    panic. *)

(** Whether [New] started [cleanUpCache] for this cache: the test of
    [New] on the interval it stored. *)
Definition sweepTaskStarted {V : Type} (c : Cache V) : bool :=
  bool_decide (cleanupTime c ≠ 0) && bool_decide (cleanupTime c ≠ NoExpirationTime).

Inductive sop (V : Type) : Type :=
  | SAdd (now : Time) (key : string) (content : any V) (ttl : Duration)
  | SSet (now : Time) (key : string) (content : any V) (ttl : Duration)
  | SDelete (key : string)
  | SFlush
  | SSweep (i : nat) (now : Time).

Arguments SAdd {V} now key content ttl.
Arguments SSet {V} now key content ttl.
Arguments SDelete {V} key.
Arguments SFlush {V}.
Arguments SSweep {V} i now.

Definition sstep {V : Type} (sc : ShardedCache V) (o : sop V)
  : result (ShardedCache V) :=
  match o with
  | SAdd now key content ttl =>
      match ShardedCache_Add sc now key content ttl with
      | Ok r => Ok r.1
      | Panic msg => Panic msg
      end
  | SSet now key content ttl => ShardedCache_Set sc now key content ttl
  | SDelete key =>
      match ShardedCache_Delete sc key with
      | Ok r => Ok r.1
      | Panic msg => Panic msg
      end
  | SFlush => ShardedCache_Flush sc
  | SSweep i now =>
      match shards sc !! i with
      | Some shard =>
          if sweepTaskStarted shard
          then match cleanUpCache shard [now] with
               | Ok shard' => Ok (setShard sc i shard')
               | Panic msg => Panic msg
               end
          else Ok sc
      | None => Ok sc
      end
  end.

Fixpoint srun {V : Type} (sc : ShardedCache V) (ops : list (sop V))
  : result (ShardedCache V) :=
  match ops with
  | [] => Ok sc
  | o :: ops' =>
      match sstep sc o with
      | Ok sc' => srun sc' ops'
      | Panic msg => Panic msg
      end
  end.

(** The same operation on one unsharded cache; a sweep of a shard has no
    counterpart. *)
Definition unsharded {V : Type} (o : sop V) : option (op V) :=
  match o with
  | SAdd now key content ttl => Some (OpAdd now key content ttl)
  | SSet now key content ttl => Some (OpSet now key content ttl)
  | SDelete key => Some (OpDelete key)
  | SFlush => Some OpFlush
  | SSweep _ _ => None
  end.

(** The shard in which [getShard] looks for [key] when there are [n]
    shards, [1 ≤ n < 2^32]. *)
Definition home (n : Z) (key : string) : nat := Z.to_nat (fnv32 key `mod` n).

(** The shape of the sharded caches that [NewShardedCache] builds and the
    operations keep: as many shards as [shardCount] says, each with a
    sound list of tracked keys, and every entry in the shard its key
    hashes to. *)
Definition sharded_ok {V : Type} (sc : ShardedCache V) : Prop :=
  length (shards sc) = Z.to_nat (shardCount sc)
  ∧ ∀ (i : nat) shard, shards sc !! i = Some shard →
      tracked_ok shard
      ∧ ∀ k, is_Some (entries shard !! k) → home (shardCount sc) k = i.

(** The intervals with which no sweep task panics: -1 and 0 start no
    task, a positive interval gives a valid ticker. *)
Definition interval_ok (cl : Duration) : Prop := cl = NoExpirationTime ∨ 0 ≤ cl.

Definition sweeps_safe {V : Type} (sc : ShardedCache V) : Prop :=
  ∀ (i : nat) shard, shards sc !! i = Some shard → interval_ok (cleanupTime shard).

(** A sharded cache and an unsharded cache hold the same data: every key
    has in its home shard what it has in the unsharded cache, and that
    shard has the same default TTL. *)
Definition same_data {V : Type} (sc : ShardedCache V) (c : Cache V) : Prop :=
  ∀ key, ∃ shard,
    shards sc !! home (shardCount sc) key = Some shard
    ∧ entries shard !! key = entries c !! key
    ∧ expirationTime shard = expirationTime c.

(** The operations that can create an entry for [key]. *)
Definition writes {V : Type} (key : string) (o : op V) : Prop :=
  match o with
  | OpAdd _ k _ _ | OpSet _ k _ _ => k = key
  | OpDelete _ | OpFlush | OpSweep _ => False
  end.

(** ** The version of the cache that scans the whole map

    The older source of the cache keeps no list of tracked keys: its
    record has the default TTL, the interval and the map, and its sweep
    ranges over the map.  A Go [range] over a map visits every entry once,
    in an order the runtime chooses; deleting the entry being visited is
    allowed.  [order] is that order: the entries of the map, each once. *)

Module FullScan.
Section Model.
Context {V : Type}.

Record cache : Type := mkCache {
  expirationTime : Duration;
  cleanupTime : Duration;
  entries : gmap string (entry V)
}.

(** One iteration of [for key, entry := range cache.entries]. *)
Definition scanEntry (currentTimestamp : Z) (m : gmap string (entry V))
    (kv : string * entry V) : gmap string (entry V) :=
  if bool_decide (ExpirationTimestamp kv.2 < currentTimestamp)
     && bool_decide (ExpirationTimestamp kv.2 ≠ NoExpirationTime)
  then delete kv.1 m
  else m.

Definition removeExpiredEntries (c : cache) (now : Time)
    (order : list (string * entry V)) : cache :=
  let currentTimestamp := time_Unix now in
  {| expirationTime := expirationTime c;
     cleanupTime := cleanupTime c;
     entries := foldl (scanEntry currentTimestamp) (entries c) order |}.
End Model.

Arguments cache : clear implicits.
End FullScan.

(** ** The version of the cache that reschedules

    In another source of the cache the loop of [cleanUpCache] sets
    [nextCleanupTime] again after every pass:
    [cache.nextCleanupTime = time.Now().Add(cache.cleanupTime).Unix()].
    The assignment is made after the pass has released the lock, so other
    operations can come between the two: it is an event of its own,
    [RReschedule now].  The methods of that source change the cache as
    the ones above do. *)

Definition reschedule {V : Type} (c : Cache V) (now : Time) : Cache V :=
  {| expirationTime := expirationTime c;
     cleanupTime := cleanupTime c;
     nextCleanupTime := time_Unix (time_Add now (cleanupTime c));
     expiringKeys := expiringKeys c;
     entries := entries c |}.

Inductive rop (V : Type) : Type :=
  | ROp (o : op V)
  | RReschedule (now : Time).

Arguments ROp {V} o.
Arguments RReschedule {V} now.

Definition rstep {V : Type} (c : Cache V) (o : rop V) : Cache V :=
  match o with
  | ROp o => step c o
  | RReschedule now => reschedule c now
  end.

Definition rrun {V : Type} (c : Cache V) (ops : list (rop V)) : Cache V :=
  foldl rstep c ops.

Definition rtouches {V : Type} (key : string) (o : rop V) : Prop :=
  match o with
  | ROp o => touches key o
  | RReschedule _ => False
  end.

(** ** A scenario: the cache of [TestCleanupBehavior]

    [New(time.Second*10, time.Second)] at the clock [t_new], then
    [Set("c", 3, NoExpirationTime)] at the same clock reading, then the
    first tick of the sweep one second later. *)

Definition t_new : Time := 1700000000 * Second + 500 * Millisecond.

Definition cache0 : Cache Z := (New (10 * Second) Second t_new).1.

Definition cache_set_never : Cache Z :=
  Set_ cache0 t_new "c" (Some 3) NoExpirationTime.

Definition cache_add_never : Cache Z :=
  (Add cache0 t_new "c" (Some 3) NoExpirationTime).1.

(** A sharded cache of four shards, as [NewShardedCache] builds it. *)
Definition sharded4 : ShardedCache Z :=
  {| shards := (λ i : nat, (New (10 * Second) Second t_new).1) <$> seq 0 4;
     shardCount := 4 |}.

(** The sharded cache that [NewShardedCache] returns for [shardCount = 0]. *)
Definition sharded0 {V : Type} : ShardedCache V :=
  {| shards := []; shardCount := 0 |}.

(** * Properties *)

(** ** Time *)

Lemma Second_pos : 0 < Second.
Proof. reflexivity. Qed.

Lemma time_Unix_nonneg (t : Time) : 0 ≤ t → 0 ≤ time_Unix t.
Proof.
  intros H. unfold time_Unix. apply Z.div_pos; [exact H | apply Second_pos].
Qed.

(** ** Slices *)

Lemma slices_Index_from_spec (i : Z) (s : list string) (v : string) :
  ((v ∉ s) ∧ slices_Index_from i s v = -1) ∨
  (∃ n : nat, slices_Index_from i s v = i + Z.of_nat n ∧
              s !! n = Some v ∧ v ∉ take n s).
Proof.
  revert i. induction s as [|x s IH]; intros i; simpl.
  - left. split; [apply not_elem_of_nil | reflexivity].
  - destruct (decide (v = x)) as [->|Hne].
    + right. exists 0%nat. simpl. split; [lia|].
      split; [reflexivity | apply not_elem_of_nil].
    + destruct (IH (i + 1)) as [[Hnot Heq]|(n & Heq & Hl & Hnot)].
      * left. split; [|exact Heq]. rewrite not_elem_of_cons. auto.
      * right. exists (S n). simpl. split; [lia|]. split; [exact Hl|].
        rewrite not_elem_of_cons. auto.
Qed.

Lemma slices_Index_spec (s : list string) (v : string) :
  ((v ∉ s) ∧ slices_Index s v = -1) ∨
  (∃ n : nat, slices_Index s v = Z.of_nat n ∧ s !! n = Some v ∧ v ∉ take n s).
Proof.
  unfold slices_Index.
  destruct (slices_Index_from_spec 0 s v) as [?|(n & Heq & ?)]; [left; assumption|].
  right. exists n. rewrite Heq. split; [lia | assumption].
Qed.

Lemma slices_Contains_true (s : list string) (v : string) :
  slices_Contains s v = true ↔ v ∈ s.
Proof.
  unfold slices_Contains. rewrite bool_decide_eq_true.
  destruct (slices_Index_spec s v) as [[Hnot ->]|(n & -> & Hl & _)].
  - split; [lia | intros; contradiction].
  - split; [intros _; eapply list_elem_of_lookup_2; exact Hl | lia].
Qed.

(** [removeByValue] splits the slice at the first occurrence. *)
Lemma removeByValue_split (s : list string) (v : string) :
  v ∈ s →
  ∃ l1 l2, s = l1 ++ v :: l2 ∧ (v ∉ l1) ∧ removeByValue s v = l1 ++ l2.
Proof.
  intros Hin. unfold removeByValue.
  destruct (slices_Index_spec s v) as [[Hnot _]|(n & -> & Hl & Hnot)]; [contradiction|].
  exists (take n s), (drop (S n) s).
  split; [symmetry; apply take_drop_middle; exact Hl|].
  split; [exact Hnot|].
  destruct (decide (Z.of_nat n ≠ -1)) as [_|Hc]; [|lia].
  replace (Z.to_nat (Z.of_nat n)) with n by lia.
  replace (Z.to_nat (Z.of_nat n + 1)) with (S n) by lia.
  reflexivity.
Qed.

Lemma removeByValue_absent (s : list string) (v : string) :
  v ∉ s → removeByValue s v = s.
Proof.
  intros Hnot. unfold removeByValue.
  destruct (slices_Index_spec s v) as [[_ ->]|(n & _ & Hl & _)].
  - destruct (decide (-1 ≠ -1)); [congruence | reflexivity].
  - exfalso. apply Hnot. eapply list_elem_of_lookup_2. exact Hl.
Qed.

Lemma removeByValue_subseteq (s : list string) (v x : string) :
  x ∈ removeByValue s v → x ∈ s.
Proof.
  destruct (decide (v ∈ s)) as [Hin|Hnot].
  - destruct (removeByValue_split s v Hin) as (l1 & l2 & -> & _ & ->).
    rewrite !elem_of_app, elem_of_cons. tauto.
  - rewrite removeByValue_absent by exact Hnot. tauto.
Qed.

Lemma removeByValue_NoDup (s : list string) (v : string) :
  NoDup s → NoDup (removeByValue s v) ∧ v ∉ removeByValue s v.
Proof.
  intros Hnd. destruct (decide (v ∈ s)) as [Hin|Hnot].
  - destruct (removeByValue_split s v Hin) as (l1 & l2 & -> & Hl1 & ->).
    apply NoDup_app in Hnd as (Hn1 & Hdisj & Hn2).
    apply NoDup_cons in Hn2 as [Hv2 Hn2].
    split.
    + apply NoDup_app. split; [exact Hn1|]. split; [|exact Hn2].
      intros y Hy Hy2. apply (Hdisj y Hy). apply elem_of_cons. auto.
    + rewrite elem_of_app. tauto.
  - rewrite removeByValue_absent by exact Hnot. auto.
Qed.

Lemma removeByValue_other (s : list string) (v x : string) :
  x ≠ v → x ∈ s → x ∈ removeByValue s v.
Proof.
  intros Hne Hx. destruct (decide (v ∈ s)) as [Hin|Hnot].
  - destruct (removeByValue_split s v Hin) as (l1 & l2 & -> & _ & ->).
    revert Hx. rewrite !elem_of_app, elem_of_cons. tauto.
  - rewrite removeByValue_absent by exact Hnot. exact Hx.
Qed.

(** ** The sweep *)

Lemma filter_ext_in {A : Type} (P Q : A → Prop)
    `{!∀ x, Decision (P x), !∀ x, Decision (Q x)} (l : list A) :
  (∀ x, x ∈ l → (P x ↔ Q x)) → filter P l = filter Q l.
Proof.
  induction l as [|a l IH]; intros Hext; [reflexivity|].
  assert (Ha : P a ↔ Q a) by (apply Hext, elem_of_cons; auto).
  assert (Hl : filter P l = filter Q l).
  { apply IH. intros x Hx. apply Hext, elem_of_cons. auto. }
  destruct (decide (P a)) as [HP|HP].
  - rewrite !filter_cons_True by tauto. rewrite Hl. reflexivity.
  - rewrite !filter_cons_False by tauto. exact Hl.
Qed.

Lemma if_decide_None_eq {A : Type} (P Q : Prop) `{Decision P, Decision Q}
    (a b : option A) :
  (P → Q) → (¬ P → Q → a = None) → (¬ P → ¬ Q → a = b) →
  (if decide P then None else a) = (if decide Q then None else b).
Proof. intros HPQ Ha Hab. destruct (decide P), (decide Q); auto; tauto. Qed.

Section Sweep.
Context {V : Type}.
Implicit Types (m : gmap string (entry V)) (c : Cache V) (k key : string).

Lemma sweep_test ts (e : entry V) :
  bool_decide (ExpirationTimestamp e < ts)
    && bool_decide (ExpirationTimestamp e ≠ NoExpirationTime) = true
  ↔ expired ts e.
Proof.
  unfold expired. rewrite andb_true_iff, !bool_decide_eq_true. reflexivity.
Qed.

Lemma sweepKey_expired ts m acc k e :
  m !! k = Some e → expired ts e →
  sweepKey ts (m, acc) k = (delete k m, acc).
Proof.
  intros Hl He. unfold sweepKey. simpl. rewrite Hl.
  apply sweep_test in He. rewrite He. reflexivity.
Qed.

Lemma sweepKey_kept ts m acc k e :
  m !! k = Some e → ¬ expired ts e →
  sweepKey ts (m, acc) k = (m, acc ++ [k]).
Proof.
  intros Hl He. unfold sweepKey. simpl. rewrite Hl.
  destruct (andb _ _) eqn:Ht; [|reflexivity].
  apply sweep_test in Ht. contradiction.
Qed.

Lemma sweepKey_absent ts m acc k :
  m !! k = None → sweepKey ts (m, acc) k = (m, acc).
Proof. intros Hl. unfold sweepKey. simpl. rewrite Hl. reflexivity. Qed.

(** The loop, from any intermediate state: what is left of the map and
    which keys are collected. *)
Lemma sweep_loop ts keys : ∀ m acc,
  let st := foldl (sweepKey ts) (m, acc) keys in
  (∀ k, st.1 !! k =
          if decide (k ∈ keys ∧ expiredIn ts m k) then None else m !! k)
  ∧ st.2 = acc ++ filter (keptIn ts m) keys.
Proof.
  induction keys as [|x keys IH]; intros m acc; cbv zeta; cbn [foldl fst snd].
  - split; [|rewrite filter_nil, app_nil_r; reflexivity].
    intros k. case_decide as Hd; [|reflexivity].
    destruct Hd as [Hk _]. apply not_elem_of_nil in Hk. contradiction.
  - destruct (m !! x) as [e|] eqn:Hx.
    + destruct (decide (expired ts e)) as [He|He].
      * rewrite (sweepKey_expired ts m acc x e Hx He).
        destruct (IH (delete x m) acc) as [IH1 IH2]. split.
        -- intros k. rewrite IH1. unfold expiredIn.
           apply if_decide_None_eq; rewrite elem_of_cons;
             (destruct (decide (k = x)) as [->|Hne];
              [rewrite lookup_delete_eq, ?Hx
              |rewrite lookup_delete_ne by congruence]); tauto.
        -- rewrite IH2. f_equal.
           rewrite filter_cons_False by (unfold keptIn; rewrite Hx; tauto).
           apply list_filter_iff. intros k. unfold keptIn.
           destruct (decide (k = x)) as [->|Hne].
           ++ rewrite lookup_delete_eq, Hx. tauto.
           ++ rewrite lookup_delete_ne by congruence. reflexivity.
      * rewrite (sweepKey_kept ts m acc x e Hx He).
        destruct (IH m (acc ++ [x])) as [IH1 IH2]. split.
        -- intros k. rewrite IH1. unfold expiredIn.
           apply if_decide_None_eq; rewrite elem_of_cons;
             (destruct (decide (k = x)) as [->|Hne]; [rewrite Hx|]); tauto.
        -- rewrite IH2, <- app_assoc. f_equal.
           rewrite filter_cons_True by (unfold keptIn; rewrite Hx; exact He).
           reflexivity.
    + rewrite (sweepKey_absent ts m acc x Hx).
      destruct (IH m acc) as [IH1 IH2]. split.
      * intros k. rewrite IH1. unfold expiredIn.
        apply if_decide_None_eq; rewrite elem_of_cons;
          (destruct (decide (k = x)) as [->|Hne]; [rewrite Hx|]); tauto.
      * rewrite IH2. f_equal.
        rewrite filter_cons_False by (unfold keptIn; rewrite Hx; tauto).
        reflexivity.
Qed.

Lemma removeExpiredEntries_entries c now k :
  entries (removeExpiredEntries c now) !! k =
    if decide (k ∈ expiringKeys c ∧ expiredIn (time_Unix now) (entries c) k)
    then None else entries c !! k.
Proof.
  unfold removeExpiredEntries. simpl.
  apply (sweep_loop (time_Unix now) (expiringKeys c) (entries c) []).
Qed.

Lemma removeExpiredEntries_keys c now :
  expiringKeys (removeExpiredEntries c now) =
    filter (keptIn (time_Unix now) (entries c)) (expiringKeys c).
Proof.
  unfold removeExpiredEntries. simpl.
  apply (sweep_loop (time_Unix now) (expiringKeys c) (entries c) []).
Qed.

Lemma removeExpiredEntries_untracked c now k :
  k ∉ expiringKeys c →
  entries (removeExpiredEntries c now) !! k = entries c !! k.
Proof.
  intros Hk. rewrite removeExpiredEntries_entries.
  case_decide as Hd; [destruct Hd; contradiction | reflexivity].
Qed.

Lemma removeExpiredEntries_fields c now :
  expirationTime (removeExpiredEntries c now) = expirationTime c
  ∧ cleanupTime (removeExpiredEntries c now) = cleanupTime c
  ∧ nextCleanupTime (removeExpiredEntries c now) = nextCleanupTime c.
Proof. unfold removeExpiredEntries. simpl. auto. Qed.
End Sweep.

(** ** The invariant of the tracked keys *)

Section Invariant.
Context {V : Type}.
Implicit Types (c : Cache V) (k key : string) (o : op V).

Lemma New_tracked_ok e cl now : tracked_ok (New (V:=V) e cl now).1.
Proof.
  split; simpl; [apply NoDup_nil_2|].
  intros k Hk. apply not_elem_of_nil in Hk. contradiction.
Qed.

(** What [Set] and [Delete] do to the tracked keys before anything is
    appended. *)
Lemma untrack_spec (keys : list string) key :
  NoDup keys →
  let keys' := if slices_Contains keys key then removeByValue keys key else keys in
  NoDup keys' ∧ (key ∉ keys') ∧ (∀ k, k ∈ keys' → k ∈ keys).
Proof.
  intros Hnd. cbv zeta. destruct (slices_Contains keys key) eqn:Hc.
  - destruct (removeByValue_NoDup keys key Hnd) as [H1 H2].
    split; [exact H1|]. split; [exact H2|].
    intros k. apply removeByValue_subseteq.
  - split; [exact Hnd|]. split; [|auto].
    intros Hin. apply slices_Contains_true in Hin. congruence.
Qed.

Lemma Add_tracked_ok c now key content ttl :
  tracked_ok c → tracked_ok (Add c now key content ttl).1.
Proof.
  intros [Hnd Hsub]. unfold Add.
  destruct (entries c !! key) as [e|] eqn:Hk; [split; assumption|].
  assert (Hnot : key ∉ expiringKeys c).
  { intros Hin. apply Hsub in Hin. rewrite Hk in Hin. destruct Hin; discriminate. }
  cbv zeta. split; cbn [fst expiringKeys entries].
  - case_decide; [|exact Hnd].
    apply NoDup_app. split; [exact Hnd|]. split; [|apply NoDup_singleton].
    intros x Hx Hx'. apply list_elem_of_singleton in Hx'. subst. contradiction.
  - intros k Hin. apply lookup_insert_is_Some.
    destruct (decide (key = k)) as [|Hne]; [left; assumption|right].
    split; [exact Hne|]. apply Hsub.
    case_decide; [|exact Hin].
    apply elem_of_app in Hin as [Hin|Hin]; [exact Hin|].
    apply list_elem_of_singleton in Hin. congruence.
Qed.

Lemma Set_tracked_ok c now key content ttl :
  tracked_ok c → tracked_ok (Set_ c now key content ttl).
Proof.
  intros [Hnd Hsub]. unfold Set_. cbv zeta.
  destruct (untrack_spec (expiringKeys c) key Hnd) as (H1 & H2 & H3).
  split; cbn [expiringKeys entries].
  - case_decide; [|exact H1].
    apply NoDup_app. split; [exact H1|]. split; [|apply NoDup_singleton].
    intros x Hx Hx'. apply list_elem_of_singleton in Hx'. subst. contradiction.
  - intros k Hin. apply lookup_insert_is_Some.
    destruct (decide (key = k)) as [|Hne]; [left; assumption|right].
    split; [exact Hne|]. apply Hsub, H3.
    case_decide; [|exact Hin].
    apply elem_of_app in Hin as [Hin|Hin]; [exact Hin|].
    apply list_elem_of_singleton in Hin. congruence.
Qed.

Lemma Delete_tracked_ok c key :
  tracked_ok c → tracked_ok (Delete c key).1.
Proof.
  intros [Hnd Hsub]. unfold Delete.
  destruct (entries c !! key) as [e|] eqn:Hk; [|split; assumption].
  cbv zeta.
  destruct (untrack_spec (expiringKeys c) key Hnd) as (H1 & H2 & H3).
  split; cbn [fst expiringKeys entries]; [exact H1|].
  intros k Hin. assert (k ≠ key) by (intros ->; contradiction).
  rewrite lookup_delete_ne by congruence. apply Hsub, H3, Hin.
Qed.

Lemma Flush_tracked_ok c : tracked_ok (Flush c).
Proof.
  split; simpl; [apply NoDup_nil_2|].
  intros k Hk. apply not_elem_of_nil in Hk. contradiction.
Qed.

Lemma removeExpiredEntries_tracked_ok c now :
  tracked_ok c → tracked_ok (removeExpiredEntries c now).
Proof.
  intros [Hnd Hsub]. split.
  - rewrite removeExpiredEntries_keys. apply NoDup_filter, Hnd.
  - intros k. rewrite removeExpiredEntries_keys, removeExpiredEntries_entries.
    rewrite list_elem_of_filter. unfold keptIn, expiredIn.
    intros [Hkept Hin]. case_decide as Hd.
    + destruct (entries c !! k); tauto.
    + destruct (entries c !! k); [eauto | contradiction].
Qed.

Lemma step_tracked_ok c o : tracked_ok c → tracked_ok (step c o).
Proof.
  destruct o; simpl;
    auto using Add_tracked_ok, Set_tracked_ok, Delete_tracked_ok,
               Flush_tracked_ok, removeExpiredEntries_tracked_ok.
Qed.

Lemma run_tracked_ok ops : ∀ c, tracked_ok c → tracked_ok (run c ops).
Proof.
  induction ops as [|o ops IH]; intros c Hc; [exact Hc|].
  apply IH, step_tracked_ok, Hc.
Qed.

(** No operation writes [nextCleanupTime], the default TTL or the
    interval. *)
Lemma step_fields c o :
  expirationTime (step c o) = expirationTime c
  ∧ cleanupTime (step c o) = cleanupTime c
  ∧ nextCleanupTime (step c o) = nextCleanupTime c.
Proof.
  destruct o; simpl; auto.
  - unfold Add. destruct (entries c !! key); simpl; auto.
  - unfold Delete. destruct (entries c !! key); simpl; auto.
Qed.

Lemma run_fields ops : ∀ c,
  expirationTime (run c ops) = expirationTime c
  ∧ cleanupTime (run c ops) = cleanupTime c
  ∧ nextCleanupTime (run c ops) = nextCleanupTime c.
Proof.
  induction ops as [|o ops IH]; intros c; [auto|].
  simpl. destruct (IH (step c o)) as (-> & -> & ->). apply step_fields.
Qed.
End Invariant.

(** ** What [Add] and [Set] store, and what later operations keep *)

Section Stores.
Context {V : Type}.
Implicit Types (c : Cache V) (k key : string) (o : op V).

Lemma Set_stores c now key content ttl :
  entries (Set_ c now key content ttl) !! key =
    Some {| Content := content;
            ExpirationTimestamp := storedExpiration (expirationTime c) now ttl |}.
Proof. unfold Set_. cbn [entries]. apply lookup_insert_eq. Qed.

Lemma Add_stores c now key content ttl :
  entries c !! key = None →
  (Add c now key content ttl).2 = None
  ∧ entries (Add c now key content ttl).1 !! key =
      Some {| Content := content;
              ExpirationTimestamp := storedExpiration (expirationTime c) now ttl |}.
Proof.
  intros Hk. unfold Add. rewrite Hk. cbn [fst snd entries].
  split; [reflexivity | apply lookup_insert_eq].
Qed.

Lemma Set_untracked c now key content ttl :
  tracked_ok c →
  nextCleanupTime c < storedExpiration (expirationTime c) now ttl →
  key ∉ expiringKeys (Set_ c now key content ttl).
Proof.
  intros [Hnd _] Hlt. unfold Set_. cbn [expiringKeys].
  fold (storedExpiration (expirationTime c) now ttl).
  destruct (untrack_spec (expiringKeys c) key Hnd) as (_ & H2 & _).
  rewrite decide_False by lia. exact H2.
Qed.

Lemma Add_untracked c now key content ttl :
  tracked_ok c → entries c !! key = None →
  nextCleanupTime c < storedExpiration (expirationTime c) now ttl →
  key ∉ expiringKeys (Add c now key content ttl).1.
Proof.
  intros [_ Hsub] Hk Hlt. unfold Add. rewrite Hk. cbn [fst expiringKeys].
  fold (storedExpiration (expirationTime c) now ttl).
  rewrite decide_False by lia.
  intros Hin. apply Hsub in Hin. rewrite Hk in Hin. destruct Hin; discriminate.
Qed.

(** An untracked entry outlives every operation that does not overwrite
    or delete its key: sweeps at any clock, and operations on other
    keys. *)
Lemma step_keeps_untracked c o key en :
  ¬ touches key o →
  key ∉ expiringKeys c → entries c !! key = Some en →
  (key ∉ expiringKeys (step c o)) ∧ entries (step c o) !! key = Some en.
Proof.
  intros Ho Hk He.
  destruct o as [t k' v d|t k' v d|k'| |t]; cbn [step touches] in Ho |- *.
  - unfold Add. destruct (entries c !! k') as [e'|] eqn:Hk'; [auto|].
    assert (k' ≠ key) by congruence.
    cbn [fst expiringKeys entries]. split.
    + case_decide; [|exact Hk].
      rewrite elem_of_app, list_elem_of_singleton. intros [?|?]; [tauto|congruence].
    + rewrite lookup_insert_ne by assumption. exact He.
  - unfold Set_. cbn [expiringKeys entries]. split.
    + assert (Hk1 : key ∉ (if slices_Contains (expiringKeys c) k'
                            then removeByValue (expiringKeys c) k'
                            else expiringKeys c)).
      { destruct (slices_Contains _ _); [|exact Hk].
        intros Hin. apply Hk. eapply removeByValue_subseteq, Hin. }
      case_decide; [|exact Hk1].
      rewrite elem_of_app, list_elem_of_singleton. intros [?|?]; [tauto|congruence].
    + rewrite lookup_insert_ne by assumption. exact He.
  - unfold Delete. destruct (entries c !! k') as [e'|] eqn:Hk'; [|auto].
    cbn [fst expiringKeys entries]. split.
    + destruct (slices_Contains _ _); [|exact Hk].
      intros Hin. apply Hk. eapply removeByValue_subseteq, Hin.
    + rewrite lookup_delete_ne by assumption. exact He.
  - tauto.
  - split.
    + rewrite removeExpiredEntries_keys, list_elem_of_filter. tauto.
    + rewrite removeExpiredEntries_untracked by exact Hk. exact He.
Qed.

Lemma run_keeps_untracked post : ∀ c key en,
  Forall (λ o, ¬ touches key o) post →
  key ∉ expiringKeys c → entries c !! key = Some en →
  (key ∉ expiringKeys (run c post)) ∧ entries (run c post) !! key = Some en.
Proof.
  induction post as [|o post IH]; intros c key en Hall Hk He; [auto|].
  apply Forall_cons in Hall as [Ho Hall].
  destruct (step_keeps_untracked c o key en Ho Hk He) as [Hk' He'].
  apply (IH (step c o) key en Hall Hk' He').
Qed.

Lemma sweeps_do_not_touch key (times : list Time) :
  Forall (λ o : op V, ¬ touches key o) (OpSweep <$> times).
Proof. apply Forall_fmap, Forall_forall. intros t _. simpl. tauto. Qed.
End Stores.

(** ** The claims about one cache *)

Section CacheClaims.
Context {V : Type}.
Implicit Types (c : Cache V) (k key : string) (o : op V).

(** C5.  A sweep pass at clock [now] leaves every entry as it was except
    the entries of tracked keys whose expiration timestamp is below the
    current Unix time and is not the "never" sentinel: exactly those are
    removed.  The tracked keys after the pass are the tracked keys that
    had an entry the pass kept, in their order; they are also the tracked
    keys that still have an entry.  The other fields are not written. *)
Theorem removeExpiredEntries_spec c now k :
  let ts := time_Unix now in
  let c' := removeExpiredEntries c now in
  entries c' !! k =
    match entries c !! k with
    | Some e =>
        if decide (k ∈ expiringKeys c ∧ expired ts e) then None else Some e
    | None => None
    end
  ∧ expiringKeys c' = filter (keptIn ts (entries c)) (expiringKeys c)
  ∧ expiringKeys c' = filter (λ x, is_Some (entries c' !! x)) (expiringKeys c)
  ∧ expirationTime c' = expirationTime c
  ∧ cleanupTime c' = cleanupTime c
  ∧ nextCleanupTime c' = nextCleanupTime c.
Proof.
  cbv zeta. split; [|split; [|split]].
  - rewrite removeExpiredEntries_entries. case_decide as Hd.
    + destruct Hd as [Hin Hexp]. unfold expiredIn in Hexp.
      destruct (entries c !! k) as [e|]; [|contradiction].
      rewrite decide_True by (split; assumption). reflexivity.
    + unfold expiredIn in Hd.
      destruct (entries c !! k) as [e|]; [|reflexivity].
      rewrite decide_False by exact Hd. reflexivity.
  - apply removeExpiredEntries_keys.
  - rewrite removeExpiredEntries_keys. apply filter_ext_in. intros x Hin.
    rewrite removeExpiredEntries_entries. unfold keptIn, expiredIn.
    case_decide as Hd; destruct (entries c !! x) as [e|].
    + split; [tauto|]. intros [? ?]; discriminate.
    + split; [tauto|]. intros [? ?]; discriminate.
    + split; [eauto|]. intros _ He. apply Hd. split; assumption.
    + split; [tauto|]. intros [? ?]; discriminate.
  - apply removeExpiredEntries_fields.
Qed.

(** C7.  [Add] on a key that has an entry returns the "already exists"
    error and the cache it was given: the stored value, its expiration
    timestamp, the tracked keys and the length are those before the
    call. *)
Theorem Add_existing_key c now key content ttl :
  is_Some (entries c !! key) →
  let r := Add c now key content ttl in
  r.2 = Some ("[Cachekit] entry " +:+ key +:+ " already exists in Cache")
  ∧ r.1 = c
  ∧ Get r.1 key = Get c key
  ∧ GetWithExpiration r.1 key = GetWithExpiration c key
  ∧ expiringKeys r.1 = expiringKeys c
  ∧ Length r.1 = Length c.
Proof.
  intros [e He]. cbv zeta. unfold Add. rewrite He. simpl. auto 10.
Qed.

(** C8.  [Get] finds a key exactly when the map has an entry for it and
    returns that entry's content; the expiration timestamp is not read.
    In particular right after [Set] with any TTL, also one that puts the
    expiration in the past, at any clock, the value is found.  [Length]
    is the number of entries of the map, whatever their timestamps: a
    [Set] on a new key adds one to it for every TTL. *)
Theorem Get_Length_ignore_expiration c key :
  Get c key =
    match entries c !! key with
    | Some e => (Content e, true)
    | None => (None, false)
    end
  ∧ ((Get c key).2 = true ↔ key ∈ dom (entries c))
  ∧ Length c = Z.of_nat (size (dom (entries c)))
  ∧ ∀ now content ttl,
      Get (Set_ c now key content ttl) key = (content, true)
      ∧ Length (Set_ c now key content ttl) =
          if decide (key ∈ dom (entries c)) then Length c else Length c + 1.
Proof.
  split; [reflexivity|]. split; [|split].
  - unfold Get. rewrite elem_of_dom.
    destruct (entries c !! key) as [e|]; simpl.
    + split; eauto.
    + split; [discriminate|]. intros [? ?]; discriminate.
  - unfold Length. rewrite size_dom. reflexivity.
  - intros now content ttl. split.
    + unfold Get, Set_. cbn [entries]. rewrite lookup_insert_eq. reflexivity.
    + unfold Length, Set_. cbn [entries].
      destruct (decide (key ∈ dom (entries c))) as [Hd|Hd];
        rewrite elem_of_dom in Hd.
      * destruct Hd as [e He].
        rewrite <- (insert_delete_id (entries c) key e He) at 2.
        rewrite <- insert_delete_eq.
        rewrite !map_size_insert_None by apply lookup_delete_eq.
        reflexivity.
      * rewrite map_size_insert_None; [lia|].
        apply eq_None_not_Some. exact Hd.
Qed.

(** C9.  In every cache reached from [New] by any sequence of [Add],
    [Set], [Delete], [Flush] and sweep passes, every tracked key has an
    entry in the map (and no key is tracked twice). *)
Theorem tracked_keys_have_entries (e cl : Duration) (t0 : Time) (ops : list (op V)) :
  let c := run (New e cl t0).1 ops in
  Forall (λ k, k ∈ dom (entries c)) (expiringKeys c)
  ∧ NoDup (expiringKeys c).
Proof.
  cbv zeta.
  destruct (run_tracked_ok ops _ (New_tracked_ok e cl t0)) as [Hnd Hsub].
  split; [|exact Hnd].
  apply Forall_forall. intros k Hk. apply elem_of_dom, Hsub, Hk.
Qed.

(** C10.  [nextCleanupTime] is the value [New] computed, after any
    operations.  When [Set], or [Add] on an absent key, stores an
    expiration timestamp above it, the key is not tracked, and after any
    number of sweep passes at any clocks the key is still untracked and
    its entry is still in the map, so [Get] finds it. *)
Theorem late_expiry_is_never_swept (e cl : Duration) (t0 : Time)
    (pre : list (op V)) (now : Time) key content (ttl : Duration)
    (sweeps : list Time) :
  let c0 := run (New e cl t0).1 pre in
  let en := {| Content := content;
               ExpirationTimestamp := storedExpiration e now ttl |} in
  let after c := run c (OpSweep <$> sweeps) in
  time_Unix (time_Add t0 cl) < storedExpiration e now ttl →
  nextCleanupTime c0 = time_Unix (time_Add t0 cl)
  ∧ ((key ∉ expiringKeys (Set_ c0 now key content ttl))
     ∧ nextCleanupTime (after (Set_ c0 now key content ttl)) = time_Unix (time_Add t0 cl)
     ∧ (key ∉ expiringKeys (after (Set_ c0 now key content ttl)))
     ∧ entries (after (Set_ c0 now key content ttl)) !! key = Some en
     ∧ Get (after (Set_ c0 now key content ttl)) key = (content, true))
  ∧ (entries c0 !! key = None →
     (Add c0 now key content ttl).2 = None
     ∧ (key ∉ expiringKeys (Add c0 now key content ttl).1)
     ∧ nextCleanupTime (after (Add c0 now key content ttl).1) = time_Unix (time_Add t0 cl)
     ∧ (key ∉ expiringKeys (after (Add c0 now key content ttl).1))
     ∧ entries (after (Add c0 now key content ttl).1) !! key = Some en
     ∧ Get (after (Add c0 now key content ttl).1) key = (content, true)).
Proof.
  intros c0 en after Hlt.
  assert (Hok : tracked_ok c0) by apply run_tracked_ok, New_tracked_ok.
  destruct (run_fields pre (New (V:=V) e cl t0).1) as (He & _ & Hn).
  fold c0 in He, Hn. simpl in He, Hn.
  assert (Hlt' : nextCleanupTime c0 < storedExpiration (expirationTime c0) now ttl)
    by (rewrite He, Hn; exact Hlt).
  split; [exact Hn|]. split.
  - pose proof (Set_untracked c0 now key content ttl Hok Hlt') as Hk.
    pose proof (Set_stores c0 now key content ttl) as Hs. rewrite He in Hs.
    destruct (run_keeps_untracked (OpSweep <$> sweeps) _ key en
                (sweeps_do_not_touch key sweeps) Hk Hs) as [Hk' Hs'].
    split; [exact Hk|]. split; [|split; [exact Hk'|split; [exact Hs'|]]].
    + unfold after. destruct (run_fields (OpSweep <$> sweeps)
                                (Set_ c0 now key content ttl)) as (_ & _ & ->).
      exact Hn.
    + unfold Get. fold (after (Set_ c0 now key content ttl)) in Hs'.
      rewrite Hs'. reflexivity.
  - intros Hnone.
    pose proof (Add_untracked c0 now key content ttl Hok Hnone Hlt') as Hk.
    destruct (Add_stores c0 now key content ttl Hnone) as [Hr Hs].
    rewrite He in Hs.
    destruct (run_keeps_untracked (OpSweep <$> sweeps) _ key en
                (sweeps_do_not_touch key sweeps) Hk Hs) as [Hk' Hs'].
    split; [exact Hr|]. split; [exact Hk|].
    split; [|split; [exact Hk'|split; [exact Hs'|]]].
    + unfold after. destruct (run_fields (OpSweep <$> sweeps)
                                (Add c0 now key content ttl).1) as (_ & _ & ->).
      pose proof (step_fields c0 (OpAdd now key content ttl)) as (_ & _ & Hn').
      simpl in Hn'. rewrite Hn'. exact Hn.
    + unfold Get. fold (after (Add c0 now key content ttl).1) in Hs'.
      rewrite Hs'. reflexivity.
Qed.
End CacheClaims.

(** ** The "never" TTL *)

(** With the "never" TTL, [Add] and [Set] store the Unix time of the
    instant one nanosecond before [now]: from one nanosecond after the
    epoch on, that is not the sentinel the sweep tests for. *)
Lemma never_ttl_is_not_the_sentinel (defaultTTL : Duration) (now : Time) :
  storedExpiration defaultTTL now NoExpirationTime = time_Unix (now - 1)
  ∧ (1 ≤ now → storedExpiration defaultTTL now NoExpirationTime ≠ NoExpirationTime).
Proof.
  unfold storedExpiration, NoExpirationTime, DefaultExpirationTime, time_Add.
  rewrite decide_False by lia. split; [reflexivity|].
  intros Hnow. pose proof (time_Unix_nonneg (now + -1) ltac:(lia)). lia.
Qed.

(** For every TTL other than "never", the timestamp of the code is the one
    of the specification's rule. *)
Lemma storedExpiration_spec (defaultTTL : Duration) (now : Time) (ttl : Duration) :
  ttl ≠ NoExpirationTime →
  storedExpiration defaultTTL now ttl = specExpiresAt defaultTTL now ttl.
Proof.
  intros Hne. unfold storedExpiration, specExpiresAt.
  destruct (decide (ttl = DefaultExpirationTime)); [reflexivity|].
  rewrite decide_False by exact Hne. reflexivity.
Qed.

(** A tracked entry whose "never" timestamp lies below the Unix time of a
    sweep is deleted by that sweep. *)
Lemma never_entry_is_swept {V : Type} (c : Cache V) (now t : Time) key content :
  1 ≤ now →
  time_Unix (now - 1) ≤ nextCleanupTime c →
  time_Unix (now - 1) < time_Unix t →
  Get (removeExpiredEntries (Set_ c now key content NoExpirationTime) t) key
    = (None, false).
Proof.
  intros Hnow Hnext Hlt.
  destruct (never_ttl_is_not_the_sentinel (expirationTime c) now) as [Hst Hne].
  specialize (Hne Hnow).
  pose proof (Set_stores c now key content NoExpirationTime) as Hs.
  assert (Hin : key ∈ expiringKeys (Set_ c now key content NoExpirationTime)).
  { unfold Set_. cbn [expiringKeys].
    fold (storedExpiration (expirationTime c) now NoExpirationTime).
    rewrite decide_True by lia.
    apply elem_of_app. right. apply list_elem_of_singleton. reflexivity. }
  unfold Get. rewrite removeExpiredEntries_entries.
  rewrite decide_True; [reflexivity|].
  split; [exact Hin|]. unfold expiredIn. rewrite Hs. unfold expired. simpl.
  split; [lia | exact Hne].
Qed.

(** C1.  The scenario of [TestCleanupBehavior]: the sweep task is started
    and its ticker is valid; ["c"] is stored with the "never" TTL and is
    found; after the first sweep, one second later, [Get] does not find it
    any more.  The same happens when the entry is stored by [Add]. *)
Theorem never_entry_removed_by_first_sweep :
  (New (V:=Z) (10 * Second) Second t_new).2 = true
  ∧ Get cache_set_never "c" = (Some 3, true)
  ∧ cleanUpCache cache_set_never [t_new + Second]
      = Ok (removeExpiredEntries cache_set_never (t_new + Second))
  ∧ Get (removeExpiredEntries cache_set_never (t_new + Second)) "c" = (None, false)
  ∧ Get cache_add_never "c" = (Some 3, true)
  ∧ Get (removeExpiredEntries cache_add_never (t_new + Second)) "c" = (None, false).
Proof. vm_compute. repeat split; reflexivity. Qed.

(** C2.  In the same scenario [Set] and [Add] with the "never" TTL store
    the timestamp 1700000000, the Unix time of the call, and track the key
    for the sweep; the rule of the specification gives the sentinel -1. *)
Theorem never_ttl_stores_unix_time_of_call :
  entries cache_set_never !! "c"
    = Some {| Content := Some 3; ExpirationTimestamp := 1700000000 |}
  ∧ entries cache_add_never !! "c"
    = Some {| Content := Some 3; ExpirationTimestamp := 1700000000 |}
  ∧ expiringKeys cache_set_never = ["c"%string]
  ∧ expiringKeys cache_add_never = ["c"%string]
  ∧ specExpiresAt (10 * Second) t_new NoExpirationTime = -1.
Proof. vm_compute. repeat split; reflexivity. Qed.

(** ** Starting the sweep task *)




(** ** The sharded cache *)

Lemma uint32_small (n : Z) : 0 ≤ n < 2 ^ 32 → uint32 n = n.
Proof. intros H. unfold uint32. apply Z.mod_small. exact H. Qed.

Lemma fnv32_byte_range (hash : Z) (c : ascii) :
  0 ≤ fnv32_byte hash c < 2 ^ 32.
Proof.
  unfold fnv32_byte, uint32.
  assert (Hm : 0 ≤ (hash * prime32) `mod` 2 ^ 32 < 2 ^ 32)
    by (apply Z.mod_pos_bound; reflexivity).
  assert (Hc : 0 ≤ Z.of_N (N_of_ascii c) < 2 ^ 32).
  { pose proof (N_ascii_bounded c) as Hb.
    change (2 ^ 32) with 4294967296. lia. }
  set (a := (hash * prime32) `mod` 2 ^ 32) in *.
  set (b := Z.of_N (N_of_ascii c)) in *.
  assert (Hnn : 0 ≤ Z.lxor a b) by (apply Z.lxor_nonneg; lia).
  split; [exact Hnn|].
  destruct (Z.eq_dec (Z.lxor a b) 0) as [->|Hz]; [reflexivity|].
  apply Z.log2_lt_pow2; [lia|].
  eapply Z.le_lt_trans; [apply Z.log2_lxor; lia|].
  apply Z.max_lub_lt.
  - destruct (Z.eq_dec a 0) as [->|?]; [reflexivity|]. apply Z.log2_lt_pow2; lia.
  - destruct (Z.eq_dec b 0) as [->|?]; [reflexivity|]. apply Z.log2_lt_pow2; lia.
Qed.

(** [Sum32] is a [uint32]. *)
Lemma fnv32_range (key : string) : 0 ≤ fnv32 key < 2 ^ 32.
Proof.
  unfold fnv32.
  assert (H0 : 0 ≤ offset32 < 2 ^ 32) by (split; [discriminate | reflexivity]).
  revert H0. generalize offset32.
  induction (list_ascii_of_string key) as [|c l IH]; intros h Hh; [exact Hh|].
  simpl. apply IH, fnv32_byte_range.
Qed.

Section Sharded.
Context {V : Type}.
Implicit Types (sc : ShardedCache V) (key : string).

Lemma shardIndex_in_range (n : Z) key :
  1 ≤ n < 2 ^ 32 →
  shardIndex n key = Ok (fnv32 key `mod` n) ∧ 0 ≤ fnv32 key `mod` n < n.
Proof.
  intros Hn. unfold shardIndex. rewrite uint32_small by lia.
  rewrite decide_False by lia. split; [reflexivity|].
  apply Z.mod_pos_bound. lia.
Qed.

Lemma getShard_zero sc key :
  shardCount sc = 0 → getShard sc key = Panic "integer divide by zero".
Proof.
  intros H. unfold getShard. rewrite H. reflexivity.
Qed.

Lemma getShard_in_range sc key :
  1 ≤ shardCount sc < 2 ^ 32 →
  length (shards sc) = Z.to_nat (shardCount sc) →
  ∃ shard,
    shards sc !! Z.to_nat (fnv32 key `mod` shardCount sc) = Some shard
    ∧ getShard sc key = Ok (Z.to_nat (fnv32 key `mod` shardCount sc), shard).
Proof.
  intros Hn Hlen.
  destruct (shardIndex_in_range (shardCount sc) key Hn) as [Hi Hr].
  destruct (lookup_lt_is_Some_2 (shards sc)
              (Z.to_nat (fnv32 key `mod` shardCount sc))) as [shard Hs].
  { rewrite Hlen. lia. }
  exists shard. split; [exact Hs|].
  unfold getShard. rewrite Hi, Hs. reflexivity.
Qed.

(** What [NewShardedCache] returns when it returns. *)
Lemma NewShardedCache_shape (n : Z) e cl clock :
  0 ≤ n →
  ∃ sc, NewShardedCache (V:=V) n e cl clock = Ok sc
        ∧ shardCount sc = n
        ∧ length (shards sc) = Z.to_nat n
        ∧ ∀ i : nat, (i < Z.to_nat n)%nat →
            shards sc !! i = Some (New e cl (clock i)).1.
Proof.
  intros Hn. unfold NewShardedCache. rewrite decide_False by lia.
  eexists. split; [reflexivity|]. cbn [shardCount shards].
  split; [reflexivity|]. split.
  - rewrite length_fmap, length_seq. reflexivity.
  - intros i Hi. rewrite list_lookup_fmap, lookup_seq_lt by exact Hi.
    reflexivity.
Qed.

(** C3, as the code has it.  [NewShardedCache] does not check
    [shardCount] and returns no error.  Below 1 there are two cases: a
    negative count makes the allocation of the shard slice panic, inside
    the constructor; the count 0 is accepted, the sharded cache has no
    shard, and then [Get], [GetWithExpiration], [Add], [Set] and
    [Delete] panic in [getShard] on the division by zero, for every key,
    while [Flush] does nothing. *)
Theorem NewShardedCache_below_one (n : Z) (e cl : Duration) (clock : nat → Time) :
  n < 1 →
  match NewShardedCache (V:=V) n e cl clock with
  | Panic msg => n < 0 ∧ msg = "makeslice: len out of range"%string
  | Ok sc =>
      n = 0 ∧ sc = sharded0
      ∧ ShardedCache_Flush sc = Ok sc
      ∧ ∀ key now content ttl,
          ShardedCache_Get sc key = Panic "integer divide by zero"
          ∧ ShardedCache_GetWithExpiration sc key = Panic "integer divide by zero"
          ∧ ShardedCache_Add sc now key content ttl = Panic "integer divide by zero"
          ∧ ShardedCache_Set sc now key content ttl = Panic "integer divide by zero"
          ∧ ShardedCache_Delete sc key = Panic "integer divide by zero"
  end.
Proof.
  intros Hn. unfold NewShardedCache.
  destruct (decide (n < 0)) as [Hneg|Hnn]; [split; [exact Hneg | reflexivity]|].
  assert (n = 0) as -> by lia. simpl.
  split; [reflexivity|]. split; [reflexivity|]. split; [reflexivity|].
  intros key now content ttl.
  unfold ShardedCache_Get, ShardedCache_GetWithExpiration, ShardedCache_Add,
    ShardedCache_Set, ShardedCache_Delete.
  rewrite (getShard_zero (mkShardedCache [] 0) key) by reflexivity. auto.
Qed.


End Sharded.

(** Where the conversion matters.  The model has no bound on memory, so
    [NewShardedCache] also returns for a count of [2^32], which needs a
    slice of 32 GiB of pointers and as many caches.  Such a count is
    converted to the [uint32] 0 and every selection panics; a count of
    [2^32 + 1] is converted to 1, and the key ["a"] selects shard 0 while
    its hash modulo the count is 84696446. *)
Lemma shard_selection_truncates_the_count :
  1 ≤ 2 ^ 32
  ∧ (∃ sc : ShardedCache Z,
       NewShardedCache (2 ^ 32) (10 * Second) Second (λ _, t_new) = Ok sc
       ∧ shardCount sc = 2 ^ 32
       ∧ length (shards sc) = Z.to_nat (2 ^ 32)
       ∧ ShardedCache_Get sc "a" = Panic "integer divide by zero")
  ∧ shardIndex (2 ^ 32) "a" = Panic "integer divide by zero"
  ∧ shardIndex (2 ^ 32 + 1) "a" = Ok 0
  ∧ fnv32 "a" `mod` (2 ^ 32 + 1) = 84696446.
Proof.
  assert (Hidx : shardIndex (2 ^ 32) "a" = Panic "integer divide by zero")
    by (vm_compute; reflexivity).
  split; [discriminate|]. split.
  - destruct (NewShardedCache_shape (V:=Z) (2 ^ 32) (10 * Second) Second
                (λ _, t_new)) as (sc & Hnew & Hcount & Hlen & _); [discriminate|].
    exists sc. split; [exact Hnew|]. split; [exact Hcount|]. split; [exact Hlen|].
    unfold ShardedCache_Get, getShard. rewrite Hcount, Hidx. reflexivity.
  - split; [exact Hidx|]. split; vm_compute; reflexivity.
Qed.

(** [NewShardedCache] accepts the count 0, and [Get] on the result
    panics. *)
Lemma zero_shards_accepted_then_panics :
  NewShardedCache (V:=Z) 0 (10 * Second) Second (λ _, t_new) = Ok sharded0
  ∧ ShardedCache_Get (V:=Z) sharded0 "a" = Panic "integer divide by zero".
Proof. split; reflexivity. Qed.

(** ** The theorems with hypotheses, at concrete inputs *)

(** [Add] on the key of the scenario, which is present. *)
Lemma Add_existing_key_witness :
  is_Some (entries cache_set_never !! "c")
  ∧ (Add cache_set_never (t_new + Second) "c" (Some 7) Second).2
      = Some "[Cachekit] entry c already exists in Cache"%string
  ∧ (Add cache_set_never (t_new + Second) "c" (Some 7) Second).1 = cache_set_never.
Proof.
  assert (H : is_Some (entries cache_set_never !! "c")).
  { exists {| Content := Some 3; ExpirationTimestamp := 1700000000 |}.
    vm_compute. reflexivity. }
  split; [exact H|].
  destruct (Add_existing_key cache_set_never (t_new + Second) "c" (Some 7) Second H)
    as (H1 & H2 & _).
  split; [exact H1 | exact H2].
Defined.

(** The entry ["b"] of [TestCleanupBehavior], set for four seconds in a
    cache whose first sweep was due after one second: sweeps ten and a
    hundred seconds later leave it in place. *)
Lemma late_expiry_is_never_swept_witness :
  time_Unix (time_Add t_new Second) < storedExpiration (10 * Second) t_new (4 * Second)
  ∧ Get (run (Set_ cache0 t_new "b" (Some 2) (4 * Second))
           (OpSweep <$> [t_new + 10 * Second; t_new + 100 * Second])) "b"
      = (Some 2, true).
Proof.
  assert (H : time_Unix (time_Add t_new Second)
              < storedExpiration (10 * Second) t_new (4 * Second))
    by (vm_compute; reflexivity).
  split; [exact H|].
  destruct (late_expiry_is_never_swept (V:=Z) (10 * Second) Second t_new []
              t_new "b" (Some 2) (4 * Second)
              [t_new + 10 * Second; t_new + 100 * Second] H)
    as (_ & (_ & _ & _ & _ & HGet) & _).
  exact HGet.
Defined.

(** The constructor at [shardCount = 0]. *)
Lemma NewShardedCache_below_one_witness :
  0 < 1
  ∧ ShardedCache_Get (V:=Z) sharded0 "a" = Panic "integer divide by zero"
  ∧ ShardedCache_Set (V:=Z) sharded0 t_new "a" (Some 1) Second
      = Panic "integer divide by zero".
Proof.
  assert (H : 0 < 1) by lia.
  split; [exact H|].
  pose proof (NewShardedCache_below_one (V:=Z) 0 (10 * Second) Second (λ _, t_new) H)
    as T.
  cbn in T. destruct T as (_ & _ & _ & T).
  destruct (T "a"%string t_new (Some 1) Second) as (T1 & _ & _ & T4 & _).
  split; [exact T1 | exact T4].
Defined.


(** * Further properties of the code *)

(** ** [removeByValue] *)

(** X13.  [removeByValue] cuts out the first occurrence of the value and nothing
    else: a slice without the value comes back as it is; otherwise the
    slice splits around the first occurrence and the result is the two
    parts joined, one element shorter.  Every other element is in the
    result exactly when it was in the slice. *)
Theorem removeByValue_first_occurrence (s : list string) (v : string) :
  ((v ∉ s) → removeByValue s v = s)
  ∧ (v ∈ s →
     ∃ l1 l2, s = l1 ++ v :: l2 ∧ (v ∉ l1) ∧ removeByValue s v = l1 ++ l2
              ∧ S (length (removeByValue s v)) = length s)
  ∧ ∀ x, x ≠ v → (x ∈ removeByValue s v ↔ x ∈ s).
Proof.
  split; [apply removeByValue_absent|]. split.
  - intros Hin.
    destruct (removeByValue_split s v Hin) as (l1 & l2 & Hs & Hl1 & Hr).
    exists l1, l2. split; [exact Hs|]. split; [exact Hl1|]. split; [exact Hr|].
    rewrite Hr, Hs, !length_app. simpl. lia.
  - intros x Hne. split; [apply removeByValue_subseteq|].
    apply removeByValue_other, Hne.
Qed.

(** ** [Delete] and [Add] *)

Section AddDelete.
Context {V : Type}.
Implicit Types (c : Cache V) (k key : string) (o : op V).

Lemma Length_insert_fresh (m : gmap string (entry V)) k e :
  m !! k = None → Z.of_nat (size (<[k := e]> m)) = Z.of_nat (size m) + 1.
Proof. intros H. rewrite map_size_insert_None by exact H. lia. Qed.

Lemma Length_delete_present (m : gmap string (entry V)) k :
  is_Some (m !! k) → Z.of_nat (size (delete k m)) = Z.of_nat (size m) - 1.
Proof.
  intros [e He]. rewrite map_size_delete, He.
  assert (size m ≠ 0%nat).
  { intros Hz. apply map_size_empty_inv in Hz. subst.
    rewrite lookup_empty in He. discriminate. }
  simpl. lia.
Qed.

(** X9.  [Delete] of a key that has no entry returns the "could not find"
    error and the cache it was given: nothing is removed, the tracked
    keys and the length are as before. *)
Theorem Delete_missing_key c key :
  entries c !! key = None →
  (Delete c key).2
    = Some ("[Cachekit] could not find key " +:+ key +:+ " in Cache")
  ∧ (Delete c key).1 = c
  ∧ Length (Delete c key).1 = Length c.
Proof. intros H. unfold Delete. rewrite H. simpl. auto. Qed.

(** X10.  [Delete] of a key that has an entry, in a cache reached from [New]:
    no error; the key is not found afterwards, by [Get] and by
    [GetWithExpiration]; it is not tracked any more; the length drops by
    one; [Add] of the same key succeeds again. *)
Theorem Delete_present_key (e cl : Duration) (t0 : Time) (ops : list (op V)) key :
  let c := run (New e cl t0).1 ops in
  is_Some (entries c !! key) →
  (Delete c key).2 = None
  ∧ Get (Delete c key).1 key = (None, false)
  ∧ GetWithExpiration (Delete c key).1 key = (None, time_Zero, false)
  ∧ (key ∉ expiringKeys (Delete c key).1)
  ∧ Length (Delete c key).1 = Length c - 1
  ∧ ∀ now content ttl, (Add (Delete c key).1 now key content ttl).2 = None.
Proof.
  intros c [en Hen].
  assert (Hok : tracked_ok c) by apply run_tracked_ok, New_tracked_ok.
  destruct Hok as [Hnd _].
  destruct (untrack_spec (expiringKeys c) key Hnd) as (_ & Hk & _).
  unfold Delete. rewrite Hen. cbn [fst snd].
  split; [reflexivity|].
  unfold Get, GetWithExpiration, Length, Add. cbn [entries expiringKeys].
  rewrite lookup_delete_eq.
  split; [reflexivity|]. split; [reflexivity|]. split; [exact Hk|].
  split; [|reflexivity].
  apply Length_delete_present. eauto.
Qed.

(** X11.  [Add] of a key that has no entry succeeds: the value is found
    afterwards, [GetWithExpiration] reports the stored timestamp as an
    instant, and the length grows by one. *)
Theorem Add_fresh_key c now key content ttl :
  entries c !! key = None →
  let c' := (Add c now key content ttl).1 in
  (Add c now key content ttl).2 = None
  ∧ Get c' key = (content, true)
  ∧ GetWithExpiration c' key
      = (content, time_FromUnix (storedExpiration (expirationTime c) now ttl), true)
  ∧ Length c' = Length c + 1
  ∧ (Add c' now key content ttl).2
      = Some ("[Cachekit] entry " +:+ key +:+ " already exists in Cache").
Proof.
  intros H. cbv zeta.
  destruct (Add_stores c now key content ttl H) as [Hr Hs].
  split; [exact Hr|].
  unfold Get, GetWithExpiration. rewrite Hs. cbn [Content ExpirationTimestamp].
  split; [reflexivity|]. split; [reflexivity|]. split.
  - unfold Length, Add. rewrite H. cbn [fst entries].
    apply Length_insert_fresh, H.
  - unfold Add at 1. rewrite Hs. reflexivity.
Qed.

(** X8.  [Add], [Set] and [Delete] on one key leave every other key alone: its
    entry is the same, and it is tracked exactly when it was. *)
Theorem operations_leave_other_keys c now key content ttl k :
  k ≠ key →
  (entries (Add c now key content ttl).1 !! k = entries c !! k
   ∧ (k ∈ expiringKeys (Add c now key content ttl).1 ↔ k ∈ expiringKeys c))
  ∧ (entries (Set_ c now key content ttl) !! k = entries c !! k
     ∧ (k ∈ expiringKeys (Set_ c now key content ttl) ↔ k ∈ expiringKeys c))
  ∧ (entries (Delete c key).1 !! k = entries c !! k
     ∧ (k ∈ expiringKeys (Delete c key).1 ↔ k ∈ expiringKeys c)).
Proof.
  intros Hne.
  assert (Hun : k ∈ (if slices_Contains (expiringKeys c) key
                     then removeByValue (expiringKeys c) key
                     else expiringKeys c) ↔ k ∈ expiringKeys c).
  { destruct (slices_Contains _ _); [|reflexivity].
    split; [apply removeByValue_subseteq | apply removeByValue_other, Hne]. }
  split; [|split].
  - unfold Add. destruct (entries c !! key); [split; reflexivity|].
    cbn [fst entries expiringKeys]. split.
    + apply lookup_insert_ne. congruence.
    + case_decide; [|reflexivity].
      rewrite elem_of_app, list_elem_of_singleton. tauto.
  - unfold Set_. cbn [entries expiringKeys]. split.
    + apply lookup_insert_ne. congruence.
    + case_decide; [|exact Hun].
      rewrite elem_of_app, list_elem_of_singleton. tauto.
  - unfold Delete. destruct (entries c !! key); [|split; reflexivity].
    cbn [fst entries expiringKeys]. split.
    + apply lookup_delete_ne. congruence.
    + exact Hun.
Qed.
End AddDelete.

(** ** [Set] after [Set], and what is tracked *)

Lemma app_singleton_split (l l1 l2 : list string) (k : string) :
  l ++ [k] = l1 ++ k :: l2 → k ∉ l → l1 = l ∧ l2 = [].
Proof.
  revert l1. induction l as [|a l IH]; intros l1 Heq Hk.
  - destruct l1 as [|b l1]; simpl in Heq.
    + injection Heq as <-. auto.
    + injection Heq as _ Heq. destruct l1; discriminate.
  - apply not_elem_of_cons in Hk as [Hne Hk].
    destruct l1 as [|b l1]; simpl in Heq.
    + injection Heq as -> _. congruence.
    + injection Heq as <- Heq. destruct (IH l1 Heq Hk) as [-> ->]. auto.
Qed.

Lemma untrack_absent (keys : list string) (k : string) :
  k ∉ keys →
  (if slices_Contains keys k then removeByValue keys k else keys) = keys.
Proof.
  intros Hk. destruct (slices_Contains keys k); [|reflexivity].
  apply removeByValue_absent, Hk.
Qed.

Lemma untrack_app_singleton (keys : list string) (k : string) :
  k ∉ keys →
  (if slices_Contains (keys ++ [k]) k
   then removeByValue (keys ++ [k]) k else keys ++ [k]) = keys.
Proof.
  intros Hk.
  assert (Hin : k ∈ keys ++ [k]).
  { apply elem_of_app. right. apply list_elem_of_singleton. reflexivity. }
  destruct (slices_Contains (keys ++ [k]) k) eqn:Hc.
  - destruct (removeByValue_split _ _ Hin) as (l1 & l2 & Heq & _ & ->).
    destruct (app_singleton_split keys l1 l2 k Heq Hk) as [-> ->].
    apply app_nil_r.
  - apply slices_Contains_true in Hin. congruence.
Qed.

Lemma Cache_eq {V : Type} (c1 c2 : Cache V) :
  expirationTime c1 = expirationTime c2 →
  cleanupTime c1 = cleanupTime c2 →
  nextCleanupTime c1 = nextCleanupTime c2 →
  expiringKeys c1 = expiringKeys c2 →
  entries c1 = entries c2 →
  c1 = c2.
Proof. destruct c1, c2. simpl. intros. subst. reflexivity. Qed.

Section Tracking.
Context {V : Type}.
Implicit Types (c : Cache V) (k key : string) (o : op V).

Lemma Set_keys c now key content ttl :
  expiringKeys (Set_ c now key content ttl) =
    if decide (storedExpiration (expirationTime c) now ttl ≤ nextCleanupTime c)
    then (if slices_Contains (expiringKeys c) key
          then removeByValue (expiringKeys c) key
          else expiringKeys c) ++ [key]
    else (if slices_Contains (expiringKeys c) key
          then removeByValue (expiringKeys c) key
          else expiringKeys c).
Proof. reflexivity. Qed.

Lemma Set_fields c now key content ttl :
  expirationTime (Set_ c now key content ttl) = expirationTime c
  ∧ cleanupTime (Set_ c now key content ttl) = cleanupTime c
  ∧ nextCleanupTime (Set_ c now key content ttl) = nextCleanupTime c.
Proof. unfold Set_. simpl. auto. Qed.

Lemma Set_tracks_iff c now key content ttl :
  tracked_ok c →
  key ∈ expiringKeys (Set_ c now key content ttl)
  ↔ storedExpiration (expirationTime c) now ttl ≤ nextCleanupTime c.
Proof.
  intros [Hnd _].
  destruct (untrack_spec (expiringKeys c) key Hnd) as (_ & Hk & _).
  unfold Set_. cbn [expiringKeys].
  fold (storedExpiration (expirationTime c) now ttl).
  case_decide as Hd.
  - rewrite elem_of_app, list_elem_of_singleton. tauto.
  - split; [intros; contradiction | intros; lia].
Qed.

Lemma Add_tracks_iff c now key content ttl :
  tracked_ok c → entries c !! key = None →
  key ∈ expiringKeys (Add c now key content ttl).1
  ↔ storedExpiration (expirationTime c) now ttl ≤ nextCleanupTime c.
Proof.
  intros [_ Hsub] Hnone.
  assert (Hk : key ∉ expiringKeys c).
  { intros Hin. apply Hsub in Hin. rewrite Hnone in Hin. destruct Hin; discriminate. }
  unfold Add. rewrite Hnone. cbn [fst expiringKeys].
  fold (storedExpiration (expirationTime c) now ttl).
  case_decide as Hd.
  - rewrite elem_of_app, list_elem_of_singleton. tauto.
  - split; [intros; contradiction | intros; lia].
Qed.

(** X7.  In a cache reached from [New], a second [Set] on a key replaces the
    first one altogether: the cache is the one a single [Set] with the
    later arguments gives, entry and tracked keys included. *)
Theorem Set_last_write_wins (e cl : Duration) (t0 : Time) (ops : list (op V))
    (t1 t2 : Time) key (v1 v2 : any V) (d1 d2 : Duration) :
  let c := run (New e cl t0).1 ops in
  Set_ (Set_ c t1 key v1 d1) t2 key v2 d2 = Set_ c t2 key v2 d2.
Proof.
  intros c.
  assert (Hok : tracked_ok c) by apply run_tracked_ok, New_tracked_ok.
  destruct Hok as [Hnd _].
  destruct (untrack_spec (expiringKeys c) key Hnd) as (_ & Hk & _).
  apply Cache_eq; try reflexivity.
  - rewrite (Set_keys (Set_ c t1 key v1 d1)), (Set_keys c t2).
    destruct (Set_fields c t1 key v1 d1) as (-> & _ & ->).
    assert (Hun : (if slices_Contains (expiringKeys (Set_ c t1 key v1 d1)) key
                   then removeByValue (expiringKeys (Set_ c t1 key v1 d1)) key
                   else expiringKeys (Set_ c t1 key v1 d1))
                  = (if slices_Contains (expiringKeys c) key
                     then removeByValue (expiringKeys c) key
                     else expiringKeys c)).
    { rewrite (Set_keys c t1). case_decide.
      - apply untrack_app_singleton, Hk.
      - apply untrack_absent, Hk. }
    rewrite Hun. reflexivity.
  - unfold Set_. cbn [entries expirationTime]. apply insert_insert_eq.
Qed.

(** X6.  In a cache reached from [New(e, cl)] at clock [t0], the key written
    by [Set], or by [Add] when it has no entry, is tracked for sweeping
    exactly when the timestamp stored for it is at most the Unix time of
    [t0 + cl]; it is then listed once. *)
Theorem tracked_iff_due_by_first_sweep (e cl : Duration) (t0 : Time)
    (ops : list (op V)) (now : Time) key (content : any V) (ttl : Duration) :
  let c := run (New e cl t0).1 ops in
  (key ∈ expiringKeys (Set_ c now key content ttl)
   ↔ storedExpiration e now ttl ≤ time_Unix (time_Add t0 cl))
  ∧ NoDup (expiringKeys (Set_ c now key content ttl))
  ∧ (entries c !! key = None →
     (key ∈ expiringKeys (Add c now key content ttl).1
      ↔ storedExpiration e now ttl ≤ time_Unix (time_Add t0 cl))).
Proof.
  intros c.
  assert (Hok : tracked_ok c) by apply run_tracked_ok, New_tracked_ok.
  destruct (run_fields ops (New (V:=V) e cl t0).1) as (He & _ & Hn).
  fold c in He, Hn. simpl in He, Hn.
  split; [|split].
  - rewrite (Set_tracks_iff c now key content ttl Hok), He, Hn. reflexivity.
  - apply (Set_tracked_ok c now key content ttl Hok).
  - intros Hnone.
    rewrite (Add_tracks_iff c now key content ttl Hok Hnone), He, Hn. reflexivity.
Qed.

(** X1.  [Set] and then one sweep, in a cache reached from [New(e, cl)] at
    clock [t0]: the key is gone exactly when its stored timestamp is at
    most the Unix time of [t0 + cl], is below the Unix time of the sweep
    and is not -1; in every other case [Get] returns the value. *)
Theorem Set_then_sweep (e cl : Duration) (t0 : Time) (ops : list (op V))
    (now : Time) key (content : any V) (ttl : Duration) (t : Time) :
  let c := run (New e cl t0).1 ops in
  let exp := storedExpiration e now ttl in
  Get (removeExpiredEntries (Set_ c now key content ttl) t) key =
    if decide (exp ≤ time_Unix (time_Add t0 cl)
               ∧ exp < time_Unix t ∧ exp ≠ NoExpirationTime)
    then (None, false) else (content, true).
Proof.
  intros c exp.
  assert (Hok : tracked_ok c) by apply run_tracked_ok, New_tracked_ok.
  destruct (run_fields ops (New (V:=V) e cl t0).1) as (He & _ & Hn).
  fold c in He, Hn. simpl in He, Hn.
  pose proof (Set_tracks_iff c now key content ttl Hok) as Htr.
  pose proof (Set_stores c now key content ttl) as Hs.
  rewrite He in Htr, Hs. rewrite Hn in Htr. fold exp in Htr, Hs.
  unfold Get. rewrite removeExpiredEntries_entries.
  assert (Hexp : expiredIn (time_Unix t) (entries (Set_ c now key content ttl)) key
                 ↔ exp < time_Unix t ∧ exp ≠ NoExpirationTime).
  { unfold expiredIn. rewrite Hs. reflexivity. }
  case_decide as Hd1; case_decide as Hd2; try reflexivity.
  - exfalso. apply Hd2. tauto.
  - exfalso. apply Hd1. tauto.
  - rewrite Hs. reflexivity.
Qed.
End Tracking.

(** ** More on the sweep *)

Lemma expired_mono {V : Type} (ts1 ts2 : Z) (e : entry V) :
  ts1 ≤ ts2 → expired ts1 e → expired ts2 e.
Proof. unfold expired. intros H [H1 H2]. split; [lia | exact H2]. Qed.

Lemma filter_all {A : Type} (P : A → Prop) `{!∀ x, Decision (P x)} (l : list A) :
  filter P l = l ↔ Forall P l.
Proof.
  split.
  - intros Heq. apply Forall_forall. intros x Hx.
    rewrite <- Heq in Hx. apply list_elem_of_filter in Hx. tauto.
  - induction 1 as [|x l Hx _ IH]; [reflexivity|].
    rewrite filter_cons_True by exact Hx. rewrite IH. reflexivity.
Qed.

Section SweepMore.
Context {V : Type}.
Implicit Types (c : Cache V) (k key : string).

Lemma sweep_lookup_Some c now k (e : entry V) :
  entries (removeExpiredEntries c now) !! k = Some e
  ↔ entries c !! k = Some e
    ∧ ¬ (k ∈ expiringKeys c ∧ expired (time_Unix now) e).
Proof.
  rewrite removeExpiredEntries_entries.
  case_decide as Hd; unfold expiredIn in Hd.
  - destruct Hd as [Hin Hexp]. split; [discriminate|].
    intros [He Hn]. rewrite He in Hexp. tauto.
  - split.
    + intros He. rewrite He in Hd. tauto.
    + intros [He _]. exact He.
Qed.

(** X4.  A sweep only removes: what it leaves in the map was there with the
    same content and timestamp, the length does not grow, and the tracked
    keys it leaves are a sublist of the tracked keys. *)
Theorem sweep_only_removes c now :
  entries (removeExpiredEntries c now) ⊆ entries c
  ∧ Length (removeExpiredEntries c now) ≤ Length c
  ∧ expiringKeys (removeExpiredEntries c now) `sublist_of` expiringKeys c.
Proof.
  assert (Hsub : entries (removeExpiredEntries c now) ⊆ entries c).
  { apply map_subseteq_spec. intros k e He.
    apply sweep_lookup_Some in He. tauto. }
  split; [exact Hsub|]. split.
  - unfold Length. apply map_subseteq_size in Hsub. lia.
  - rewrite removeExpiredEntries_keys. apply sublist_filter.
Qed.

(** X3.  Two sweeps in a row are one sweep at the later clock: when the Unix
    time of the first is at most that of the second, the cache after both
    is the cache after the second alone.  So sweeping twice at one clock
    changes nothing more. *)
Theorem sweep_twice c (t1 t2 : Time) :
  time_Unix t1 ≤ time_Unix t2 →
  removeExpiredEntries (removeExpiredEntries c t1) t2 = removeExpiredEntries c t2.
Proof.
  intros Hle. apply Cache_eq; try reflexivity.
  - rewrite !removeExpiredEntries_keys, list_filter_filter.
    apply filter_ext_in. intros k Hin. unfold keptIn.
    destruct (entries (removeExpiredEntries c t1) !! k) as [e1|] eqn:H1.
    + apply sweep_lookup_Some in H1 as [H1 Hn]. rewrite H1. tauto.
    + destruct (entries c !! k) as [e|] eqn:H0; [|tauto].
      split; [tauto|]. intros Hkept. exfalso.
      assert (Hs : entries (removeExpiredEntries c t1) !! k = Some e).
      { apply sweep_lookup_Some. split; [exact H0|].
        intros [_ Hexp]. apply Hkept. eapply expired_mono; eassumption. }
      congruence.
  - apply map_eq. intros k. apply option_eq. intros e.
    rewrite !sweep_lookup_Some, removeExpiredEntries_keys, list_elem_of_filter.
    unfold keptIn. split.
    + intros [[H0 Hn1] Hn2]. split; [exact H0|].
      intros [Hin Hexp]. apply Hn2. split; [|exact Hexp].
      split; [|exact Hin]. rewrite H0. tauto.
    + intros [H0 Hn]. split; [split; [exact H0|]|].
      * intros [Hin Hexp]. apply Hn. split; [exact Hin|].
        eapply expired_mono; eassumption.
      * intros [[_ Hin] Hexp]. apply Hn. split; assumption.
Qed.

(** X5.  A sweep leaves the cache exactly as it is if and only if every
    tracked key has an entry that is not expired at that clock. *)
Theorem sweep_is_identity_iff c now :
  removeExpiredEntries c now = c
  ↔ Forall (keptIn (time_Unix now) (entries c)) (expiringKeys c).
Proof.
  split.
  - intros Heq.
    apply (proj1 (filter_all (keptIn (time_Unix now) (entries c)) (expiringKeys c))).
    rewrite <- removeExpiredEntries_keys, Heq. reflexivity.
  - intros Hall. apply Cache_eq; try reflexivity.
    + rewrite removeExpiredEntries_keys.
      apply (proj2 (filter_all (keptIn (time_Unix now) (entries c)) (expiringKeys c))).
      exact Hall.
    + apply map_eq. intros k. apply option_eq. intros e.
      rewrite sweep_lookup_Some. split; [tauto|].
      intros He. split; [exact He|]. intros [Hin Hexp].
      rewrite Forall_forall in Hall. specialize (Hall k Hin).
      unfold keptIn in Hall. rewrite He in Hall. tauto.
Qed.

(** X12.  [GetWithExpiration] agrees with [Get] on the value and on whether the
    key is found.  The instant it reports after [Set] is [now] plus the
    TTL in force (the default TTL of the cache when the call passes 0)
    rounded down to a whole second: it is at most that instant and less
    than a second before it. *)
Theorem GetWithExpiration_reports_whole_seconds c now key (content : any V) ttl :
  (GetWithExpiration c key).1.1 = (Get c key).1
  ∧ (GetWithExpiration c key).2 = (Get c key).2
  ∧ let d := if decide (ttl = DefaultExpirationTime) then expirationTime c else ttl in
    let r := GetWithExpiration (Set_ c now key content ttl) key in
    r.1.1 = content ∧ r.2 = true
    ∧ r.1.2 ≤ now + d < r.1.2 + Second
    ∧ r.1.2 `mod` Second = 0.
Proof.
  split; [|split].
  - unfold GetWithExpiration, Get. destruct (entries c !! key); reflexivity.
  - unfold GetWithExpiration, Get. destruct (entries c !! key); reflexivity.
  - cbv zeta. unfold GetWithExpiration. rewrite Set_stores.
    cbn [fst snd Content ExpirationTimestamp].
    split; [reflexivity|]. split; [reflexivity|].
    unfold storedExpiration, time_FromUnix, time_Unix, time_Add.
    pose proof Second_pos as Hs.
    split.
    + destruct (decide (ttl = DefaultExpirationTime)).
      * pose proof (Z.mod_pos_bound (now + expirationTime c) Second Hs).
        pose proof (Z.div_mod (now + expirationTime c) Second ltac:(lia)). lia.
      * pose proof (Z.mod_pos_bound (now + ttl) Second Hs).
        pose proof (Z.div_mod (now + ttl) Second ltac:(lia)). lia.
    + apply Z.mod_mul. lia.
Qed.
End SweepMore.

(** ** More on the sharded cache *)

Section ShardedMore.
Context {V : Type}.
Implicit Types (sc : ShardedCache V) (c shard : Cache V) (k key : string).

Lemma flushFrom_spec (n : nat) : ∀ (i : nat) (l : list (Cache V)),
  (i + n)%nat = length l →
  ∃ l', flushFrom n i l = Ok l'
        ∧ length l' = length l
        ∧ ∀ j : nat, l' !! j = if decide (i ≤ j)%nat then Flush <$> l !! j else l !! j.
Proof.
  induction n as [|n IH]; intros i l Hlen; simpl.
  - exists l. split; [reflexivity|]. split; [reflexivity|].
    intros j. case_decide; [|reflexivity].
    rewrite (lookup_ge_None_2 l j) by lia. reflexivity.
  - destruct (lookup_lt_is_Some_2 l i) as [shard Hs]; [lia|].
    rewrite Hs.
    destruct (IH (S i) (<[i := Flush shard]> l)) as (l' & Hf & Hl & Hj).
    { rewrite length_insert. lia. }
    exists l'. split; [exact Hf|]. split; [rewrite Hl; apply length_insert|].
    intros j. rewrite Hj.
    destruct (decide (j = i)) as [->|Hne].
    + rewrite decide_False by lia. rewrite decide_True by lia.
      rewrite list_lookup_insert_eq by (eapply lookup_lt_Some, Hs).
      rewrite Hs. reflexivity.
    + rewrite list_lookup_insert_ne by congruence.
      repeat case_decide; try reflexivity; lia.
Qed.

Lemma ShardedCache_Flush_all sc :
  length (shards sc) = Z.to_nat (shardCount sc) →
  ShardedCache_Flush sc
    = Ok {| shards := Flush <$> shards sc; shardCount := shardCount sc |}.
Proof.
  intros Hlen. unfold ShardedCache_Flush.
  destruct (flushFrom_spec (Z.to_nat (shardCount sc)) 0 (shards sc))
    as (l' & -> & Hl & Hj); [lia|].
  f_equal. f_equal. apply list_eq. intros j.
  rewrite Hj, list_lookup_fmap. rewrite decide_True by lia. reflexivity.
Qed.

Lemma getShard_home sc key :
  1 ≤ shardCount sc < 2 ^ 32 →
  length (shards sc) = Z.to_nat (shardCount sc) →
  ∃ shard, shards sc !! home (shardCount sc) key = Some shard
           ∧ getShard sc key = Ok (home (shardCount sc) key, shard).
Proof. apply getShard_in_range. Qed.

(** What the operations on one key do to the entries of any key. *)
Lemma Add_entries_cases c now key content ttl k :
  entries (Add c now key content ttl).1 !! k =
    if decide (k = key ∧ entries c !! key = None)
    then Some {| Content := content;
                 ExpirationTimestamp := storedExpiration (expirationTime c) now ttl |}
    else entries c !! k.
Proof.
  case_decide as Hd.
  - destruct Hd as [-> Hk]. apply Add_stores, Hk.
  - unfold Add. destruct (entries c !! key) as [e|] eqn:Hk; [reflexivity|].
    cbn [fst entries]. apply lookup_insert_ne. intros ->. tauto.
Qed.

Lemma Set_entries_cases c now key content ttl k :
  entries (Set_ c now key content ttl) !! k =
    if decide (k = key)
    then Some {| Content := content;
                 ExpirationTimestamp := storedExpiration (expirationTime c) now ttl |}
    else entries c !! k.
Proof.
  destruct (decide (k = key)) as [->|Hne]; [apply Set_stores|].
  unfold Set_. cbn [entries]. apply lookup_insert_ne. congruence.
Qed.

Lemma Delete_entries_cases c key k :
  entries (Delete c key).1 !! k =
    if decide (k = key) then None else entries c !! k.
Proof.
  unfold Delete. destruct (entries c !! key) as [e|] eqn:Hk; cbn [fst entries].
  - case_decide as Hd.
    + subst. apply lookup_delete_eq.
    + apply lookup_delete_ne. congruence.
  - case_decide as Hd; [subst; exact Hk | reflexivity].
Qed.

Lemma Add_fields c now key content ttl :
  expirationTime (Add c now key content ttl).1 = expirationTime c.
Proof. unfold Add. destruct (entries c !! key); reflexivity. Qed.

Lemma Delete_fields c key :
  expirationTime (Delete c key).1 = expirationTime c.
Proof. unfold Delete. destruct (entries c !! key); reflexivity. Qed.

Lemma Add_error_by_lookup c1 c2 now key content ttl :
  entries c1 !! key = entries c2 !! key →
  (Add c1 now key content ttl).2 = (Add c2 now key content ttl).2.
Proof.
  intros H. unfold Add. rewrite H. destruct (entries c2 !! key); reflexivity.
Qed.

Lemma Delete_error_by_lookup c1 c2 key :
  entries c1 !! key = entries c2 !! key →
  (Delete c1 key).2 = (Delete c2 key).2.
Proof.
  intros H. unfold Delete. rewrite H. destruct (entries c2 !! key); reflexivity.
Qed.

Lemma setShard_lookup sc (i j : nat) shard shard' :
  shards sc !! i = Some shard →
  shards (setShard sc i shard') !! j
    = if decide (j = i) then Some shard' else shards sc !! j.
Proof.
  intros Hs. unfold setShard. cbn [shards]. case_decide as Hd.
  - subst. apply list_lookup_insert_eq. eapply lookup_lt_Some, Hs.
  - apply list_lookup_insert_ne. congruence.
Qed.

Lemma setShard_ok sc (i : nat) shard shard' :
  sharded_ok sc →
  shards sc !! i = Some shard →
  tracked_ok shard' →
  (∀ k, is_Some (entries shard' !! k) → home (shardCount sc) k = i) →
  sharded_ok (setShard sc i shard').
Proof.
  intros [Hlen Hall] Hs Hok Hhome. split.
  - unfold setShard. cbn [shards shardCount]. rewrite length_insert. exact Hlen.
  - intros j x. rewrite (setShard_lookup sc i j shard shard' Hs).
    cbn [setShard shardCount]. case_decide as Hd.
    + intros [= <-]. subst. split; assumption.
    + apply Hall.
Qed.

Lemma New_sweepTaskStarted (e cl : Duration) (now : Time) :
  (New (V:=V) e cl now).2 = sweepTaskStarted (New (V:=V) e cl now).1.
Proof. reflexivity. Qed.

(** What a step of the sweep task of a shard does, by the interval. *)
Lemma sweep_task_step sc (i : nat) shard now :
  shards sc !! i = Some shard →
  sstep sc (SSweep i now) =
    if decide (cleanupTime shard = 0 ∨ cleanupTime shard = NoExpirationTime)
    then Ok sc
    else if decide (0 < cleanupTime shard)
    then Ok (setShard sc i (removeExpiredEntries shard now))
    else Panic "non-positive interval for NewTicker".
Proof.
  intros Hs. cbn [sstep]. rewrite Hs. unfold sweepTaskStarted, cleanUpCache.
  unfold NoExpirationTime in *.
  destruct (decide (cleanupTime shard = 0 ∨ cleanupTime shard = -1)) as [Hd|Hd].
  - destruct Hd as [Hd|Hd]; rewrite Hd; reflexivity.
  - rewrite !bool_decide_eq_true_2 by tauto. cbn [andb].
    destruct (decide (cleanupTime shard ≤ 0)), (decide (0 < cleanupTime shard));
      try lia; reflexivity.
Qed.

Lemma setShard_safe sc (i : nat) shard shard' :
  sweeps_safe sc →
  shards sc !! i = Some shard →
  cleanupTime shard' = cleanupTime shard →
  sweeps_safe (setShard sc i shard').
Proof.
  intros Hsafe Hs Hcl j x. rewrite (setShard_lookup sc i j shard shard' Hs).
  case_decide as Hd.
  - intros [= <-]. rewrite Hcl. apply (Hsafe i shard Hs).
  - apply Hsafe.
Qed.

Lemma sstep_ok sc (o : sop V) :
  1 ≤ shardCount sc < 2 ^ 32 → sharded_ok sc → sweeps_safe sc →
  ∃ sc', sstep sc o = Ok sc' ∧ shardCount sc' = shardCount sc
         ∧ sharded_ok sc' ∧ sweeps_safe sc'.
Proof.
  intros Hn Hok Hsafe. pose proof Hok as [Hlen Hall].
  destruct o as [now key content ttl|now key content ttl|key| |i now].
  - simpl. destruct (getShard_home sc key Hn Hlen) as (shard & Hs & Hg).
    unfold ShardedCache_Add. rewrite Hg. cbn [fst].
    eexists. split; [reflexivity|]. split; [reflexivity|].
    destruct (Hall _ _ Hs) as [Ht Hh]. split.
    + apply (setShard_ok sc _ shard);
        [exact Hok | exact Hs | apply Add_tracked_ok, Ht|].
      intros k. rewrite Add_entries_cases. case_decide as Hd; [|apply Hh].
      intros _. destruct Hd as [-> _]. reflexivity.
    + apply (setShard_safe sc _ shard _ Hsafe Hs).
      apply (step_fields shard (OpAdd now key content ttl)).
  - simpl. destruct (getShard_home sc key Hn Hlen) as (shard & Hs & Hg).
    unfold ShardedCache_Set. rewrite Hg.
    eexists. split; [reflexivity|]. split; [reflexivity|].
    destruct (Hall _ _ Hs) as [Ht Hh]. split.
    + apply (setShard_ok sc _ shard);
        [exact Hok | exact Hs | apply Set_tracked_ok, Ht|].
      intros k. rewrite Set_entries_cases. case_decide as Hd; [|apply Hh].
      intros _. subst. reflexivity.
    + apply (setShard_safe sc _ shard _ Hsafe Hs). reflexivity.
  - simpl. destruct (getShard_home sc key Hn Hlen) as (shard & Hs & Hg).
    unfold ShardedCache_Delete. rewrite Hg. cbn [fst].
    eexists. split; [reflexivity|]. split; [reflexivity|].
    destruct (Hall _ _ Hs) as [Ht Hh]. split.
    + apply (setShard_ok sc _ shard);
        [exact Hok | exact Hs | apply Delete_tracked_ok, Ht|].
      intros k. rewrite Delete_entries_cases. case_decide as Hd; [|apply Hh].
      intros [? ?]; discriminate.
    + apply (setShard_safe sc _ shard _ Hsafe Hs).
      apply (step_fields shard (OpDelete key)).
  - simpl. rewrite (ShardedCache_Flush_all sc Hlen).
    eexists. split; [reflexivity|]. split; [reflexivity|]. split; [split|].
    + cbn [shards shardCount]. rewrite length_fmap. exact Hlen.
    + intros j x. cbn [shards shardCount]. rewrite list_lookup_fmap.
      destruct (shards sc !! j) as [y|]; [|discriminate].
      intros [= <-]. split; [apply Flush_tracked_ok|].
      intros k. simpl. rewrite lookup_empty. intros [? ?]; discriminate.
    + intros j x. cbn [shards]. rewrite list_lookup_fmap.
      destruct (shards sc !! j) as [y|] eqn:Hy; [|discriminate].
      intros [= <-]. apply (Hsafe j y Hy).
  - destruct (shards sc !! i) as [shard|] eqn:Hs.
    + rewrite (sweep_task_step sc i shard now Hs).
      case_decide as Hd0; [exists sc; auto|].
      pose proof (Hsafe i shard Hs) as Hint. unfold interval_ok in Hint.
      rewrite decide_True by (unfold NoExpirationTime in *; lia).
      eexists. split; [reflexivity|]. split; [reflexivity|].
      destruct (Hall _ _ Hs) as [Ht Hh]. split.
      * apply (setShard_ok sc _ shard);
          [exact Hok | exact Hs | apply removeExpiredEntries_tracked_ok, Ht|].
        intros k [en Hen]. apply Hh. exists en.
        rewrite removeExpiredEntries_entries in Hen.
        case_decide; [discriminate | exact Hen].
      * apply (setShard_safe sc _ shard _ Hsafe Hs). reflexivity.
    + simpl. rewrite Hs. exists sc. auto.
Qed.

Lemma srun_ok (ops : list (sop V)) : ∀ sc,
  1 ≤ shardCount sc < 2 ^ 32 → sharded_ok sc → sweeps_safe sc →
  ∃ sc', srun sc ops = Ok sc' ∧ shardCount sc' = shardCount sc ∧ sharded_ok sc'.
Proof.
  induction ops as [|o ops IH]; intros sc Hn Hok Hsafe; simpl.
  - exists sc. auto.
  - destruct (sstep_ok sc o Hn Hok Hsafe) as (sc1 & -> & Hc1 & Hok1 & Hsafe1).
    destruct (IH sc1) as (sc' & Hr & Hc' & Hok');
      [rewrite Hc1; exact Hn | exact Hok1 | exact Hsafe1|].
    exists sc'. split; [exact Hr|]. split; [congruence | exact Hok'].
Qed.

Lemma NewShardedCache_ok (n : Z) e cl clock :
  0 ≤ n →
  ∃ sc, NewShardedCache (V:=V) n e cl clock = Ok sc
        ∧ shardCount sc = n ∧ sharded_ok sc
        ∧ ∀ (i : nat) shard, shards sc !! i = Some shard →
            shard = (New e cl (clock i)).1.
Proof.
  intros Hn.
  destruct (NewShardedCache_shape (V:=V) n e cl clock Hn)
    as (sc & Hnew & Hc & Hlen & Hi).
  exists sc. split; [exact Hnew|]. split; [exact Hc|].
  assert (Hsh : ∀ (i : nat) shard, shards sc !! i = Some shard →
                  shard = (New e cl (clock i)).1).
  { intros i shard Hs. assert (i < Z.to_nat n)%nat.
    { rewrite <- Hlen. eapply lookup_lt_Some, Hs. }
    rewrite Hi in Hs by assumption. congruence. }
  split; [|exact Hsh]. split; [rewrite Hc; exact Hlen|].
  intros i shard Hs. rewrite (Hsh i shard Hs). split; [apply New_tracked_ok|].
  intros k. simpl. rewrite lookup_empty. intros [? ?]; discriminate.
Qed.

(** X14.  A sharded cache built with [1 ≤ shardCount < 2^32] and with an
    interval that is -1, 0 or positive never panics: any sequence of
    [Add], [Set], [Delete], [Flush] and steps of the shards' sweep tasks
    runs to the end.  The count and the number of shards stay as built,
    every entry sits in the shard its key hashes to, and in every shard
    the tracked keys have entries and are listed once. *)
Theorem sharded_runs_never_panic (n : Z) (e cl : Duration) (clock : nat → Time)
    (ops : list (sop V)) :
  1 ≤ n < 2 ^ 32 →
  cl = NoExpirationTime ∨ 0 ≤ cl →
  ∃ sc0 sc,
    NewShardedCache n e cl clock = Ok sc0
    ∧ srun sc0 ops = Ok sc
    ∧ shardCount sc = n
    ∧ length (shards sc) = Z.to_nat n
    ∧ ∀ (i : nat) shard, shards sc !! i = Some shard →
        NoDup (expiringKeys shard)
        ∧ (∀ k, k ∈ expiringKeys shard → is_Some (entries shard !! k))
        ∧ ∀ k, is_Some (entries shard !! k) → i = home n k.
Proof.
  intros Hn Hcl.
  destruct (NewShardedCache_ok n e cl clock) as (sc0 & Hnew & Hc0 & Hok0 & Hsh); [lia|].
  assert (Hsafe0 : sweeps_safe sc0).
  { intros i shard Hs. rewrite (Hsh i shard Hs). exact Hcl. }
  destruct (srun_ok ops sc0) as (sc & Hrun & Hc & [Hlen Hall]);
    [rewrite Hc0; exact Hn | exact Hok0 | exact Hsafe0|].
  exists sc0, sc. rewrite Hc, Hc0 in *.
  split; [exact Hnew|]. split; [exact Hrun|]. split; [reflexivity|].
  split; [exact Hlen|].
  intros i shard Hs. destruct (Hall i shard Hs) as [[Hnd Hsub] Hh].
  split; [exact Hnd|]. split; [exact Hsub|].
  intros k Hk. symmetry. apply Hh, Hk.
Qed.

(** X21.  With an interval below -1 the sharded cache is built and each
    shard has a sweep task, but the task cannot run: whatever came before,
    a run in which the task of a shard takes a step ends in the panic of
    [time.NewTicker]. *)
Theorem sharded_negative_interval_panics (n : Z) (e cl : Duration)
    (clock : nat → Time) (ops : list (sop V)) (i : nat) (now : Time) :
  1 ≤ n < 2 ^ 32 →
  cl < -1 →
  (i < Z.to_nat n)%nat →
  ∃ sc0,
    NewShardedCache n e cl clock = Ok sc0
    ∧ (∀ (j : nat) shard, shards sc0 !! j = Some shard →
         sweepTaskStarted shard = true)
    ∧ srun sc0 (ops ++ [SSweep i now]) = Panic "non-positive interval for NewTicker".
Proof.
  intros Hn Hcl Hi.
  destruct (NewShardedCache_ok n e cl clock) as (sc0 & Hnew & Hc0 & [Hlen0 _] & Hsh);
    [lia|].
  exists sc0. split; [exact Hnew|]. split.
  { intros j shard Hs. rewrite (Hsh j shard Hs). unfold sweepTaskStarted. simpl.
    rewrite !bool_decide_eq_true_2 by (unfold NoExpirationTime; lia). reflexivity. }
  assert (Hsweep : ∀ sc (j : nat) t shard,
            shards sc !! j = Some shard → cleanupTime shard = cl →
            sstep sc (SSweep j t) = Panic "non-positive interval for NewTicker").
  { intros sc j t shard Hs Hc. rewrite (sweep_task_step sc j shard t Hs), Hc.
    rewrite decide_False by (unfold NoExpirationTime; lia).
    rewrite decide_False by lia. reflexivity. }
  assert (Hgen : ∀ (l : list (sop V)) sc,
            1 ≤ shardCount sc < 2 ^ 32 →
            length (shards sc) = Z.to_nat (shardCount sc) →
            (∀ (j : nat) shard, shards sc !! j = Some shard → cleanupTime shard = cl) →
            (i < length (shards sc))%nat →
            srun sc (l ++ [SSweep i now]) = Panic "non-positive interval for NewTicker").
  { induction l as [|o l IH]; intros sc Hcn Hlen Hcls Hlt.
    - cbn [app srun]. destruct (lookup_lt_is_Some_2 (shards sc) i Hlt) as [shard Hs].
      rewrite (Hsweep sc i now shard Hs (Hcls i shard Hs)). reflexivity.
    - cbn [app srun].
      assert (Hstep : sstep sc o = Panic "non-positive interval for NewTicker"
                ∨ ∃ sc1, sstep sc o = Ok sc1
                  ∧ shardCount sc1 = shardCount sc
                  ∧ length (shards sc1) = length (shards sc)
                  ∧ ∀ (j : nat) shard, shards sc1 !! j = Some shard →
                      cleanupTime shard = cl).
      { destruct o as [t key v d|t key v d|key| |j t].
        - right. simpl.
          destruct (getShard_home sc key Hcn Hlen) as (shard & Hs & Hg).
          unfold ShardedCache_Add. rewrite Hg. cbn [fst].
          eexists. split; [reflexivity|]. split; [reflexivity|].
          split; [apply length_insert|].
          intros j x. rewrite (setShard_lookup sc _ j shard _ Hs).
          case_decide; [|apply Hcls]. intros [= <-].
          destruct (step_fields shard (OpAdd t key v d)) as (_ & Hc & _).
          simpl in Hc. rewrite Hc. apply (Hcls _ _ Hs).
        - right. simpl.
          destruct (getShard_home sc key Hcn Hlen) as (shard & Hs & Hg).
          unfold ShardedCache_Set. rewrite Hg.
          eexists. split; [reflexivity|]. split; [reflexivity|].
          split; [apply length_insert|].
          intros j x. rewrite (setShard_lookup sc _ j shard _ Hs).
          case_decide; [|apply Hcls]. intros [= <-]. apply (Hcls _ _ Hs).
        - right. simpl.
          destruct (getShard_home sc key Hcn Hlen) as (shard & Hs & Hg).
          unfold ShardedCache_Delete. rewrite Hg. cbn [fst].
          eexists. split; [reflexivity|]. split; [reflexivity|].
          split; [apply length_insert|].
          intros j x. rewrite (setShard_lookup sc _ j shard _ Hs).
          case_decide; [|apply Hcls]. intros [= <-].
          destruct (step_fields shard (OpDelete key)) as (_ & Hc & _).
          simpl in Hc. rewrite Hc. apply (Hcls _ _ Hs).
        - right. simpl. rewrite (ShardedCache_Flush_all sc Hlen).
          eexists. split; [reflexivity|]. split; [reflexivity|].
          split; [cbn [shards]; apply length_fmap|].
          intros j x. cbn [shards]. rewrite list_lookup_fmap.
          destruct (shards sc !! j) as [y|] eqn:Hy; [|discriminate].
          intros [= <-]. apply (Hcls j y Hy).
        - destruct (shards sc !! j) as [shard|] eqn:Hs.
          + left. apply (Hsweep sc j t shard Hs (Hcls j shard Hs)).
          + right. exists sc. cbn [sstep]. rewrite Hs. auto. }
      destruct Hstep as [-> | (sc1 & -> & Hc1 & Hl1 & Hcls1)]; [reflexivity|].
      apply IH; [rewrite Hc1; exact Hcn | congruence | exact Hcls1 | lia]. }
  apply Hgen; [rewrite Hc0; exact Hn | exact Hlen0 | | rewrite Hlen0, Hc0; exact Hi].
  intros j shard Hs. rewrite (Hsh j shard Hs). reflexivity.
Qed.

(** X17.  [Flush] of a sharded cache that has as many shards as its count
    flushes every shard and does not panic; when the count is between 1
    and [2^32 - 1], no key is found afterwards. *)
Theorem ShardedCache_Flush_empties sc :
  length (shards sc) = Z.to_nat (shardCount sc) →
  ShardedCache_Flush sc
    = Ok {| shards := Flush <$> shards sc; shardCount := shardCount sc |}
  ∧ (1 ≤ shardCount sc < 2 ^ 32 →
     ∀ key,
       ShardedCache_Get
         {| shards := Flush <$> shards sc; shardCount := shardCount sc |} key
       = Ok (None, false)).
Proof.
  intros Hlen. split; [apply ShardedCache_Flush_all, Hlen|].
  intros Hn key.
  set (sc' := {| shards := Flush <$> shards sc; shardCount := shardCount sc |}).
  destruct (getShard_home sc' key) as (shard & Hs & Hg).
  { exact Hn. }
  { unfold sc'. cbn [shards shardCount]. rewrite length_fmap. exact Hlen. }
  unfold ShardedCache_Get. rewrite Hg.
  unfold sc' in Hs. cbn [shards shardCount] in Hs.
  rewrite list_lookup_fmap in Hs.
  destruct (shards sc !! home (shardCount sc) key) as [x|]; [|discriminate].
  injection Hs as <-. reflexivity.
Qed.

(** X16.  Through the sharded cache, [Set] and then [Get] of the same key gives
    back the value, and [Get] of every other key gives what it gave
    before, whichever shard that key lives in. *)
Theorem sharded_Set_then_Get sc now key (content : any V) ttl :
  1 ≤ shardCount sc < 2 ^ 32 →
  length (shards sc) = Z.to_nat (shardCount sc) →
  ∃ sc',
    ShardedCache_Set sc now key content ttl = Ok sc'
    ∧ ShardedCache_Get sc' key = Ok (content, true)
    ∧ (∀ k, k ≠ key → ShardedCache_Get sc' k = ShardedCache_Get sc k)
    ∧ shardCount sc' = shardCount sc
    ∧ length (shards sc') = length (shards sc).
Proof.
  intros Hn Hlen.
  destruct (getShard_home sc key Hn Hlen) as (shard & Hs & Hg).
  unfold ShardedCache_Set. rewrite Hg.
  set (sc' := setShard sc (home (shardCount sc) key) (Set_ shard now key content ttl)).
  assert (Hlen' : length (shards sc') = length (shards sc))
    by apply length_insert.
  assert (Hget : ∀ k, ∃ x,
             shards sc !! home (shardCount sc) k = Some x
             ∧ ShardedCache_Get sc k = Ok (Get x k)
             ∧ ShardedCache_Get sc' k =
                 Ok (Get (if decide (home (shardCount sc) k = home (shardCount sc) key)
                          then Set_ shard now key content ttl else x) k)).
  { intros k.
    destruct (getShard_home sc k Hn Hlen) as (x & Hx & Hgx).
    destruct (getShard_home sc' k) as (y & Hy & Hgy); [exact Hn | |].
    { rewrite Hlen'. exact Hlen. }
    exists x. split; [exact Hx|].
    unfold ShardedCache_Get. rewrite Hgx, Hgy. split; [reflexivity|].
    change (shardCount sc') with (shardCount sc) in Hy.
    unfold sc' in Hy. rewrite (setShard_lookup sc _ _ shard _ Hs) in Hy.
    case_decide; congruence. }
  exists sc'. split; [reflexivity|]. split; [|split; [|split; [reflexivity | exact Hlen']]].
  - destruct (Hget key) as (x & _ & _ & ->). rewrite decide_True by reflexivity.
    unfold Get. rewrite Set_stores. reflexivity.
  - intros k Hne. destruct (Hget k) as (x & Hx & -> & ->).
    case_decide as Hd; [|reflexivity].
    rewrite Hd, Hs in Hx. injection Hx as <-.
    unfold Get. rewrite Set_entries_cases, decide_False by exact Hne. reflexivity.
Qed.
End ShardedMore.

(** ** Sharding is transparent *)

Section Transparent.
Context {V : Type}.
Implicit Types (sc : ShardedCache V) (c shard : Cache V) (k key : string).

Lemma same_data_keyed sc c key shard shard' c' :
  same_data sc c →
  shards sc !! home (shardCount sc) key = Some shard →
  (∀ k, k ≠ key → entries shard' !! k = entries shard !! k) →
  (∀ k, k ≠ key → entries c' !! k = entries c !! k) →
  entries shard' !! key = entries c' !! key →
  expirationTime shard' = expirationTime shard →
  expirationTime c' = expirationTime c →
  same_data (setShard sc (home (shardCount sc) key) shard') c'.
Proof.
  intros Hsim Hs Hf1 Hf2 Hkey He1 He2 k.
  destruct (Hsim k) as (x & Hx & Hxe & Hxt).
  cbn [setShard shardCount].
  change (<[home (shardCount sc) key:=shard']> (shards sc))
    with (shards (setShard sc (home (shardCount sc) key) shard')).
  rewrite (setShard_lookup sc _ _ shard shard' Hs).
  case_decide as Hd.
  - rewrite Hd, Hs in Hx. injection Hx as <-.
    exists shard'. split; [reflexivity|]. split; [|congruence].
    destruct (decide (k = key)) as [->|Hne]; [exact Hkey|].
    rewrite Hf1, Hf2 by exact Hne. exact Hxe.
  - exists x. split; [exact Hx|]. split; [|congruence].
    assert (k ≠ key) by (intros ->; contradiction).
    rewrite Hf2 by assumption. exact Hxe.
Qed.

Lemma sstep_same_data sc c (o : sop V) (o' : op V) :
  1 ≤ shardCount sc < 2 ^ 32 →
  length (shards sc) = Z.to_nat (shardCount sc) →
  same_data sc c →
  unsharded o = Some o' →
  ∃ sc', sstep sc o = Ok sc'
         ∧ shardCount sc' = shardCount sc
         ∧ length (shards sc') = length (shards sc)
         ∧ same_data sc' (step c o').
Proof.
  intros Hn Hlen Hsim Ho.
  destruct o as [now key content ttl|now key content ttl|key| |i now];
    simpl in Ho; try discriminate; injection Ho as <-; simpl.
  - destruct (getShard_home sc key Hn Hlen) as (shard & Hs & Hg).
    destruct (Hsim key) as (x & Hx & Hxe & Hxt).
    rewrite Hs in Hx. injection Hx as <-.
    unfold ShardedCache_Add. rewrite Hg. cbn [fst].
    eexists. split; [reflexivity|]. split; [reflexivity|].
    split; [apply length_insert|].
    apply (same_data_keyed sc c key shard); try assumption.
    + intros k Hne. rewrite Add_entries_cases, decide_False by tauto. reflexivity.
    + intros k Hne. rewrite Add_entries_cases, decide_False by tauto. reflexivity.
    + rewrite !Add_entries_cases, Hxt.
      destruct (entries c !! key) as [en|] eqn:Hc.
      * rewrite !decide_False by (intros [_ ?]; congruence). exact Hxe.
      * rewrite !decide_True by (split; [reflexivity | congruence]). reflexivity.
    + apply Add_fields.
    + apply Add_fields.
  - destruct (getShard_home sc key Hn Hlen) as (shard & Hs & Hg).
    destruct (Hsim key) as (x & Hx & Hxe & Hxt).
    rewrite Hs in Hx. injection Hx as <-.
    unfold ShardedCache_Set. rewrite Hg.
    eexists. split; [reflexivity|]. split; [reflexivity|].
    split; [apply length_insert|].
    apply (same_data_keyed sc c key shard); try assumption.
    + intros k Hne. rewrite Set_entries_cases, decide_False by exact Hne. reflexivity.
    + intros k Hne. rewrite Set_entries_cases, decide_False by exact Hne. reflexivity.
    + rewrite !Set_stores, Hxt. reflexivity.
    + reflexivity.
    + reflexivity.
  - destruct (getShard_home sc key Hn Hlen) as (shard & Hs & Hg).
    destruct (Hsim key) as (x & Hx & Hxe & Hxt).
    rewrite Hs in Hx. injection Hx as <-.
    unfold ShardedCache_Delete. rewrite Hg. cbn [fst].
    eexists. split; [reflexivity|]. split; [reflexivity|].
    split; [apply length_insert|].
    apply (same_data_keyed sc c key shard); try assumption.
    + intros k Hne. rewrite Delete_entries_cases, decide_False by exact Hne. reflexivity.
    + intros k Hne. rewrite Delete_entries_cases, decide_False by exact Hne. reflexivity.
    + rewrite !Delete_entries_cases, !decide_True by reflexivity. reflexivity.
    + apply Delete_fields.
    + apply Delete_fields.
  - rewrite (ShardedCache_Flush_all sc Hlen).
    eexists. split; [reflexivity|]. split; [reflexivity|].
    split; [cbn [shards]; apply length_fmap|].
    intros k. destruct (Hsim k) as (x & Hx & _ & Hxt).
    exists (Flush x). cbn [shards shardCount]. rewrite list_lookup_fmap, Hx.
    split; [reflexivity|]. split; [|exact Hxt].
    simpl. rewrite !lookup_empty. reflexivity.
Qed.

Lemma srun_same_data (ops : list (sop V)) : ∀ sc c,
  1 ≤ shardCount sc < 2 ^ 32 →
  length (shards sc) = Z.to_nat (shardCount sc) →
  same_data sc c →
  Forall (λ o, is_Some (unsharded o)) ops →
  ∃ sc', srun sc ops = Ok sc'
         ∧ shardCount sc' = shardCount sc
         ∧ length (shards sc') = length (shards sc)
         ∧ same_data sc' (run c (omap unsharded ops)).
Proof.
  induction ops as [|o ops IH]; intros sc c Hn Hlen Hsim Hall.
  - exists sc. auto.
  - apply Forall_cons in Hall as [[o' Ho] Hall].
    destruct (sstep_same_data sc c o o' Hn Hlen Hsim Ho)
      as (sc1 & Hst & Hc1 & Hl1 & Hsim1).
    destruct (IH sc1 (step c o')) as (sc' & Hr & Hc' & Hl' & Hsim');
      [rewrite Hc1; exact Hn | rewrite Hl1, Hc1; exact Hlen | exact Hsim1 | exact Hall|].
    exists sc'. simpl. rewrite Hst, Ho. simpl.
    split; [exact Hr|]. split; [congruence|]. split; [congruence | exact Hsim'].
Qed.

(** X15.  Sharding does not show in the results.  Build a sharded cache with
    [1 ≤ shardCount < 2^32] and an unsharded cache with the same default
    TTL, and apply the same [Add], [Set], [Delete] and [Flush] calls, with
    the same clock readings, to both (no sweep in between).  Then for
    every key [Get] and [GetWithExpiration] return the same through the
    sharded cache as on the unsharded one, and a further [Add] or
    [Delete] returns the same error or success. *)
Theorem sharding_is_transparent (n : Z) (e cl cl' : Duration)
    (clock : nat → Time) (t0 : Time) (ops : list (sop V)) :
  1 ≤ n < 2 ^ 32 →
  Forall (λ o, is_Some (unsharded o)) ops →
  ∃ sc0 sc,
    NewShardedCache n e cl clock = Ok sc0
    ∧ srun sc0 ops = Ok sc
    ∧ ∀ key,
        let c := run (New e cl' t0).1 (omap unsharded ops) in
        ShardedCache_Get sc key = Ok (Get c key)
        ∧ ShardedCache_GetWithExpiration sc key = Ok (GetWithExpiration c key)
        ∧ (∀ now content ttl, ∃ sc',
             ShardedCache_Add sc now key content ttl
               = Ok (sc', (Add c now key content ttl).2))
        ∧ ∃ sc', ShardedCache_Delete sc key = Ok (sc', (Delete c key).2).
Proof.
  intros Hn Hall.
  destruct (NewShardedCache_ok (V:=V) n e cl clock)
    as (sc0 & Hnew & Hc0 & [Hlen0 _] & Hsh);
    [lia|].
  assert (Hsim0 : same_data sc0 (New e cl' t0).1).
  { intros k. destruct (getShard_home sc0 k) as (x & Hx & _);
      [rewrite Hc0; exact Hn | exact Hlen0|].
    exists x. split; [exact Hx|]. rewrite (Hsh _ _ Hx). simpl.
    rewrite !lookup_empty. auto. }
  destruct (srun_same_data ops sc0 (New e cl' t0).1)
    as (sc & Hrun & Hc & Hl & Hsim);
    [rewrite Hc0; exact Hn | exact Hlen0 | exact Hsim0 | exact Hall|].
  exists sc0, sc. split; [exact Hnew|]. split; [exact Hrun|].
  intros key c.
  assert (Hn' : 1 ≤ shardCount sc < 2 ^ 32) by (rewrite Hc, Hc0; exact Hn).
  assert (Hlen' : length (shards sc) = Z.to_nat (shardCount sc)) by congruence.
  destruct (getShard_home sc key Hn' Hlen') as (shard & Hs & Hg).
  destruct (Hsim key) as (x & Hx & Hxe & _). fold c in Hxe.
  rewrite Hs in Hx. injection Hx as <-.
  unfold ShardedCache_Get, ShardedCache_GetWithExpiration, ShardedCache_Add,
    ShardedCache_Delete.
  rewrite Hg. unfold Get, GetWithExpiration. rewrite Hxe.
  split; [reflexivity|]. split; [reflexivity|]. split.
  - intros now content ttl. eexists. cbn [snd].
    rewrite (Add_error_by_lookup shard c now key content ttl Hxe). reflexivity.
  - eexists. cbn [snd].
    rewrite (Delete_error_by_lookup shard c key Hxe). reflexivity.
Qed.
End Transparent.

(** ** Expiry of a tracked entry *)

Section Expiry.
Context {V : Type}.
Implicit Types (c : Cache V) (k key : string) (o : op V).

Lemma step_tracked_or_gone c o key (en : entry V) :
  ¬ writes key o →
  (key ∈ expiringKeys c ∧ entries c !! key = Some en) ∨ entries c !! key = None →
  (key ∈ expiringKeys (step c o) ∧ entries (step c o) !! key = Some en)
  ∨ entries (step c o) !! key = None.
Proof.
  intros Ho Hc.
  destruct o as [t k' v d|t k' v d|k'| |t]; cbn [step writes] in Ho |- *.
  - assert (Hne : key ≠ k') by congruence.
    rewrite Add_entries_cases, decide_False by tauto.
    destruct Hc as [[Hin He]|Hn]; [left; split; [|exact He] | right; exact Hn].
    unfold Add. destruct (entries c !! k'); [exact Hin|].
    cbn [fst expiringKeys]. case_decide; [|exact Hin].
    apply elem_of_app. left. exact Hin.
  - assert (Hne : key ≠ k') by congruence.
    rewrite Set_entries_cases, decide_False by exact Hne.
    destruct Hc as [[Hin He]|Hn]; [left; split; [|exact He] | right; exact Hn].
    rewrite Set_keys.
    assert (Hin' : key ∈ (if slices_Contains (expiringKeys c) k'
                          then removeByValue (expiringKeys c) k'
                          else expiringKeys c)).
    { destruct (slices_Contains _ _); [|exact Hin].
      apply removeByValue_other; assumption. }
    case_decide; [|exact Hin']. apply elem_of_app. left. exact Hin'.
  - rewrite Delete_entries_cases.
    destruct (decide (key = k')) as [Heq|Hne]; [right; reflexivity|].
    destruct Hc as [[Hin He]|Hn]; [left; split; [|exact He] | right; exact Hn].
    unfold Delete. destruct (entries c !! k'); [|exact Hin].
    cbn [fst expiringKeys]. destruct (slices_Contains _ _); [|exact Hin].
    apply removeByValue_other; assumption.
  - right. apply lookup_empty.
  - destruct Hc as [[Hin He]|Hn].
    + destruct (decide (expired (time_Unix t) en)) as [Hexp|Hexp].
      * right. rewrite removeExpiredEntries_entries. apply decide_True.
        split; [exact Hin|]. unfold expiredIn. rewrite He. exact Hexp.
      * left. split.
        -- rewrite removeExpiredEntries_keys. apply list_elem_of_filter.
           split; [|exact Hin]. unfold keptIn. rewrite He. exact Hexp.
        -- apply sweep_lookup_Some. split; [exact He|]. tauto.
    + right. apply eq_None_not_Some. intros [x Hx].
      apply sweep_lookup_Some in Hx as [Hx _]. congruence.
Qed.

Lemma run_tracked_or_gone (post : list (op V)) : ∀ c key (en : entry V),
  Forall (λ o, ¬ writes key o) post →
  (key ∈ expiringKeys c ∧ entries c !! key = Some en) ∨ entries c !! key = None →
  (key ∈ expiringKeys (run c post) ∧ entries (run c post) !! key = Some en)
  ∨ entries (run c post) !! key = None.
Proof.
  induction post as [|o post IH]; intros c key en Hall Hc; [exact Hc|].
  apply Forall_cons in Hall as [Ho Hall].
  apply (IH (step c o) key en Hall).
  apply step_tracked_or_gone; assumption.
Qed.

(** X2.  A tracked entry does expire.  Take a tracked key whose timestamp is
    not -1, let any operations follow that do not [Add] or [Set] that key
    (operations on other keys, [Delete], [Flush], other sweeps), and then
    a sweep at a clock whose Unix time is above the timestamp: [Get] does
    not find the key after it. *)
Theorem tracked_entry_expires c key (en : entry V) (post : list (op V)) (t : Time) :
  key ∈ expiringKeys c →
  entries c !! key = Some en →
  ExpirationTimestamp en ≠ NoExpirationTime →
  ExpirationTimestamp en < time_Unix t →
  Forall (λ o, ¬ writes key o) post →
  Get (removeExpiredEntries (run c post) t) key = (None, false).
Proof.
  intros Hin He Hne Hlt Hall.
  destruct (run_tracked_or_gone post c key en Hall (or_introl (conj Hin He)))
    as [[Hin' He']|Hn]; unfold Get; rewrite removeExpiredEntries_entries.
  - rewrite decide_True; [reflexivity|].
    split; [exact Hin'|]. unfold expiredIn. rewrite He'. split; assumption.
  - case_decide; [reflexivity|]. rewrite Hn. reflexivity.
Qed.
End Expiry.

(** ** The full scan *)

Section FullScanProps.
Context {V : Type}.
Implicit Types (m : gmap string (entry V)) (k key : string).

Lemma scan_lookup_Some ts (l : list (string * entry V)) : ∀ m k (e : entry V),
  foldl (FullScan.scanEntry ts) m l !! k = Some e
  ↔ m !! k = Some e ∧ ¬ Exists (λ kv, kv.1 = k ∧ expired ts kv.2) l.
Proof.
  induction l as [|[k' e'] l IH]; intros m k e; simpl.
  - rewrite Exists_nil. tauto.
  - rewrite IH, Exists_cons. unfold FullScan.scanEntry. simpl.
    destruct (andb _ _) eqn:Ht.
    + apply sweep_test in Ht.
      destruct (decide (k = k')) as [->|Hne].
      * rewrite lookup_delete_eq. split; [intros [? _]; discriminate | tauto].
      * rewrite lookup_delete_ne by congruence. split; [|tauto].
        intros [Hm Hn]. split; [exact Hm|]. intros [[Heq _]|Hex]; [congruence|tauto].
    + assert (¬ expired ts e').
      { intros Hexp. apply sweep_test in Hexp. congruence. }
      tauto.
Qed.

(** X18.  The full scan removes exactly the expired entries, whatever the order
    in which the runtime hands out the entries of the map: what is left is
    the map filtered by "not expired", and the two durations are not
    written. *)
Theorem full_scan_removes_expired (c : FullScan.cache V) (now : Time)
    (order : list (string * entry V)) :
  order ≡ₚ map_to_list (FullScan.entries c) →
  FullScan.entries (FullScan.removeExpiredEntries c now order)
    = filter (λ kv, ¬ expired (time_Unix now) kv.2) (FullScan.entries c)
  ∧ FullScan.expirationTime (FullScan.removeExpiredEntries c now order)
    = FullScan.expirationTime c
  ∧ FullScan.cleanupTime (FullScan.removeExpiredEntries c now order)
    = FullScan.cleanupTime c.
Proof.
  intros Hperm. split; [|split; reflexivity].
  unfold FullScan.removeExpiredEntries. cbn [FullScan.entries].
  apply map_eq. intros k. apply option_eq. intros e.
  rewrite scan_lookup_Some, map_lookup_filter_Some. simpl.
  split.
  - intros [Hm Hn]. split; [exact Hm|]. intros Hexp. apply Hn.
    apply Exists_exists. exists (k, e). split; [|simpl; auto].
    rewrite Hperm. apply elem_of_map_to_list. exact Hm.
  - intros [Hm Hn]. split; [exact Hm|]. intros Hex.
    apply Exists_exists in Hex as ([k' e'] & Hin & Hk & Hexp). simpl in Hk, Hexp.
    subst k'. rewrite Hperm in Hin. apply elem_of_map_to_list in Hin.
    rewrite Hm in Hin. injection Hin as <-. contradiction.
Qed.

(** X19.  The sweep over the tracked keys against the full scan of the same
    map: everything the full scan keeps, the tracked sweep keeps as well;
    the two leave the same map exactly when every expired entry has its
    key among the tracked keys. *)
Theorem tracked_sweep_against_full_scan (c : Cache V) (now : Time)
    (order : list (string * entry V)) :
  order ≡ₚ map_to_list (entries c) →
  let full :=
    FullScan.entries
      (FullScan.removeExpiredEntries
         (FullScan.mkCache (expirationTime c) (cleanupTime c) (entries c))
         now order) in
  full ⊆ entries (removeExpiredEntries c now)
  ∧ (entries (removeExpiredEntries c now) = full
     ↔ ∀ k e, entries c !! k = Some e → expired (time_Unix now) e →
              k ∈ expiringKeys c).
Proof.
  intros Hperm full.
  assert (Hfull : ∀ k e, full !! k = Some e
                  ↔ entries c !! k = Some e ∧ ¬ expired (time_Unix now) e).
  { intros k e. unfold full, FullScan.removeExpiredEntries.
    cbn [FullScan.entries]. rewrite scan_lookup_Some. split.
    - intros [Hm Hn]. split; [exact Hm|]. intros Hexp. apply Hn.
      apply Exists_exists. exists (k, e). split; [|simpl; auto].
      rewrite Hperm. apply elem_of_map_to_list. exact Hm.
    - intros [Hm Hn]. split; [exact Hm|]. intros Hex.
      apply Exists_exists in Hex as ([k' e'] & Hin & Hk & Hexp).
      simpl in Hk, Hexp. subst k'. rewrite Hperm in Hin.
      apply elem_of_map_to_list in Hin. rewrite Hm in Hin.
      injection Hin as <-. contradiction. }
  split.
  - apply map_subseteq_spec. intros k e He. apply Hfull in He as [Hm Hn].
    apply sweep_lookup_Some. tauto.
  - split.
    + intros Heq k e Hm Hexp.
      destruct (decide (k ∈ expiringKeys c)) as [Hin|Hnot]; [exact Hin|].
      exfalso.
      assert (Hs : entries (removeExpiredEntries c now) !! k = Some e).
      { apply sweep_lookup_Some. tauto. }
      rewrite Heq in Hs. apply Hfull in Hs. tauto.
    + intros Hall. apply map_eq. intros k. apply option_eq. intros e.
      rewrite sweep_lookup_Some, Hfull. split; [|tauto].
      intros [Hm Hn]. split; [exact Hm|]. intros Hexp. apply Hn.
      split; [eapply Hall; eassumption | exact Hexp].
Qed.
End FullScanProps.

(** ** Rescheduling the next sweep *)

Section Rescheduling.
Context {V : Type}.
Implicit Types (c : Cache V) (k key : string).

Lemma rstep_tracked_ok c (o : rop V) : tracked_ok c → tracked_ok (rstep c o).
Proof.
  destruct o as [o|t]; [apply step_tracked_ok|]. intros H. exact H.
Qed.

Lemma rrun_tracked_ok (ops : list (rop V)) : ∀ c,
  tracked_ok c → tracked_ok (rrun c ops).
Proof.
  induction ops as [|o ops IH]; intros c Hc; [exact Hc|].
  apply IH, rstep_tracked_ok, Hc.
Qed.

Lemma rrun_expirationTime (ops : list (rop V)) : ∀ c,
  expirationTime (rrun c ops) = expirationTime c.
Proof.
  induction ops as [|o ops IH]; intros c; [reflexivity|].
  simpl. rewrite IH. destruct o as [o|t]; [apply step_fields | reflexivity].
Qed.

Lemma rrun_keeps_untracked (post : list (rop V)) : ∀ c key (en : entry V),
  Forall (λ o, ¬ rtouches key o) post →
  key ∉ expiringKeys c → entries c !! key = Some en →
  (key ∉ expiringKeys (rrun c post)) ∧ entries (rrun c post) !! key = Some en.
Proof.
  induction post as [|o post IH]; intros c key en Hall Hk He; [auto|].
  apply Forall_cons in Hall as [Ho Hall].
  destruct o as [o|t]; simpl.
  - destruct (step_keeps_untracked c o key en Ho Hk He) as [Hk' He'].
    apply (IH (step c o) key en Hall Hk' He').
  - apply (IH (reschedule c t) key en Hall Hk He).
Qed.

(** X20.  Rescheduling does not bring an entry back under the sweep.  In the
    version that sets [nextCleanupTime] again after every pass, take a
    cache reached from [New] and a [Set] whose stored timestamp is above
    the [nextCleanupTime] of that moment: the key is not tracked, and
    after any later sweeps, reschedulings and operations that do not
    overwrite or delete the key, it is still untracked and [Get] still
    finds the value. *)
Theorem rescheduling_does_not_track_stored_entries (e cl : Duration) (t0 : Time)
    (pre post : list (rop V)) (now : Time) key (content : any V) (ttl : Duration) :
  let c0 := rrun (New e cl t0).1 pre in
  nextCleanupTime c0 < storedExpiration e now ttl →
  Forall (λ o, ¬ rtouches key o) post →
  (key ∉ expiringKeys (Set_ c0 now key content ttl))
  ∧ (key ∉ expiringKeys (rrun (Set_ c0 now key content ttl) post))
  ∧ Get (rrun (Set_ c0 now key content ttl) post) key = (content, true).
Proof.
  intros c0 Hlt Hall.
  assert (Hok : tracked_ok c0) by apply rrun_tracked_ok, New_tracked_ok.
  assert (He : expirationTime c0 = e) by apply rrun_expirationTime.
  assert (Hk : key ∉ expiringKeys (Set_ c0 now key content ttl)).
  { apply Set_untracked; [exact Hok|]. rewrite He. exact Hlt. }
  pose proof (Set_stores c0 now key content ttl) as Hs.
  destruct (rrun_keeps_untracked post _ key _ Hall Hk Hs) as [Hk' Hs'].
  split; [exact Hk|]. split; [exact Hk'|].
  unfold Get. rewrite Hs'. reflexivity.
Qed.
End Rescheduling.

(** ** The further theorems with hypotheses, at concrete inputs *)

Lemma Delete_missing_key_witness :
  entries cache0 !! "x" = None
  ∧ (Delete cache0 "x").2 = Some "[Cachekit] could not find key x in Cache"%string
  ∧ (Delete cache0 "x").1 = cache0.
Proof.
  assert (H : entries cache0 !! "x" = None) by reflexivity.
  split; [exact H|].
  destruct (Delete_missing_key cache0 "x" H) as (H1 & H2 & _).
  split; [exact H1 | exact H2].
Defined.

Lemma Delete_present_key_witness :
  is_Some (entries (run (New (V:=Z) (10 * Second) Second t_new).1
                      [OpSet t_new "c" (Some 3) Second]) !! "c")
  ∧ Get (Delete (run (New (V:=Z) (10 * Second) Second t_new).1
                   [OpSet t_new "c" (Some 3) Second]) "c").1 "c" = (None, false).
Proof.
  assert (H : is_Some (entries (run (New (V:=Z) (10 * Second) Second t_new).1
                                  [OpSet t_new "c" (Some 3) Second]) !! "c")).
  { exists {| Content := Some 3; ExpirationTimestamp := 1700000001 |}.
    vm_compute. reflexivity. }
  split; [exact H|].
  destruct (Delete_present_key (V:=Z) (10 * Second) Second t_new
              [OpSet t_new "c" (Some 3) Second] "c" H) as (_ & H2 & _).
  exact H2.
Defined.

Lemma Add_fresh_key_witness :
  entries cache0 !! "x" = None
  ∧ Get (Add cache0 t_new "x" (Some 5) Second).1 "x" = (Some 5, true)
  ∧ Length (Add cache0 t_new "x" (Some 5) Second).1 = Length cache0 + 1.
Proof.
  assert (H : entries cache0 !! "x" = None) by reflexivity.
  split; [exact H|].
  destruct (Add_fresh_key cache0 t_new "x" (Some 5) Second H) as (_ & H2 & _ & H4 & _).
  split; [exact H2 | exact H4].
Defined.

Lemma operations_leave_other_keys_witness :
  "c"%string ≠ "d"%string
  ∧ entries (Set_ cache_set_never t_new "d" (Some 4) Second) !! "c"
    = entries cache_set_never !! "c"
  ∧ entries (Delete cache_set_never "d").1 !! "c" = entries cache_set_never !! "c".
Proof.
  assert (H : "c"%string ≠ "d"%string) by discriminate.
  split; [exact H|].
  destruct (operations_leave_other_keys cache_set_never t_new "d" (Some 4) Second "c" H)
    as (_ & (H2 & _) & (H3 & _)).
  split; [exact H2 | exact H3].
Defined.

Lemma sweep_twice_witness :
  time_Unix (t_new + Second) ≤ time_Unix (t_new + 3 * Second)
  ∧ removeExpiredEntries (removeExpiredEntries cache_set_never (t_new + Second))
      (t_new + 3 * Second)
    = removeExpiredEntries cache_set_never (t_new + 3 * Second).
Proof.
  assert (H : time_Unix (t_new + Second) ≤ time_Unix (t_new + 3 * Second))
    by (vm_compute; discriminate).
  split; [exact H|].
  exact (sweep_twice cache_set_never (t_new + Second) (t_new + 3 * Second) H).
Defined.

Lemma sharded_runs_never_panic_witness :
  1 ≤ 4 < 2 ^ 32
  ∧ (Second = NoExpirationTime ∨ 0 ≤ Second)
  ∧ ∃ sc0 sc : ShardedCache Z,
      NewShardedCache 4 (10 * Second) Second (λ _, t_new) = Ok sc0
      ∧ srun sc0 [SSet t_new "a" (Some 1) Second; SSweep 2 (t_new + 5 * Second);
                  SDelete "a"; SFlush] = Ok sc
      ∧ shardCount sc = 4.
Proof.
  assert (H : 1 ≤ 4 < 2 ^ 32) by (split; [discriminate | reflexivity]).
  assert (H' : Second = NoExpirationTime ∨ 0 ≤ Second) by (right; discriminate).
  split; [exact H|]. split; [exact H'|].
  destruct (sharded_runs_never_panic (V:=Z) 4 (10 * Second) Second (λ _, t_new)
              [SSet t_new "a" (Some 1) Second; SSweep 2 (t_new + 5 * Second);
               SDelete "a"; SFlush] H H')
    as (sc0 & sc & H1 & H2 & H3 & _).
  exists sc0, sc. split; [exact H1|]. split; [exact H2 | exact H3].
Defined.

Lemma sharded_negative_interval_panics_witness :
  1 ≤ 4 < 2 ^ 32
  ∧ -2 < -1
  ∧ (2 < Z.to_nat 4)%nat
  ∧ ∃ sc0 : ShardedCache Z,
      NewShardedCache 4 (10 * Second) (-2) (λ _, t_new) = Ok sc0
      ∧ srun sc0 ([SSet t_new "a" (Some 1) Second] ++ [SSweep 2 (t_new + Second)])
        = Panic "non-positive interval for NewTicker".
Proof.
  assert (H1 : 1 ≤ 4 < 2 ^ 32) by (split; [discriminate | reflexivity]).
  assert (H2 : -2 < -1) by reflexivity.
  assert (H3 : (2 < Z.to_nat 4)%nat) by (vm_compute; lia).
  split; [exact H1|]. split; [exact H2|]. split; [exact H3|].
  destruct (sharded_negative_interval_panics (V:=Z) 4 (10 * Second) (-2) (λ _, t_new)
              [SSet t_new "a" (Some 1) Second] 2 (t_new + Second) H1 H2 H3)
    as (sc0 & Hn & _ & Hp).
  exists sc0. split; [exact Hn | exact Hp].
Defined.

Lemma ShardedCache_Flush_empties_witness :
  length (shards sharded4) = Z.to_nat (shardCount sharded4)
  ∧ ShardedCache_Flush sharded4
    = Ok {| shards := Flush <$> shards sharded4; shardCount := shardCount sharded4 |}.
Proof.
  assert (H : length (shards sharded4) = Z.to_nat (shardCount sharded4))
    by reflexivity.
  split; [exact H|].
  exact (proj1 (ShardedCache_Flush_empties sharded4 H)).
Defined.

Lemma sharded_Set_then_Get_witness :
  1 ≤ shardCount sharded4 < 2 ^ 32
  ∧ length (shards sharded4) = Z.to_nat (shardCount sharded4)
  ∧ ∃ sc',
      ShardedCache_Set sharded4 t_new "a" (Some 1) Second = Ok sc'
      ∧ ShardedCache_Get sc' "a" = Ok (Some 1, true).
Proof.
  assert (H1 : 1 ≤ shardCount sharded4 < 2 ^ 32)
    by (split; [discriminate | reflexivity]).
  assert (H2 : length (shards sharded4) = Z.to_nat (shardCount sharded4))
    by reflexivity.
  split; [exact H1|]. split; [exact H2|].
  destruct (sharded_Set_then_Get sharded4 t_new "a" (Some 1) Second H1 H2)
    as (sc' & Hs & Hg & _).
  exists sc'. split; [exact Hs | exact Hg].
Defined.

Lemma sharding_is_transparent_witness :
  1 ≤ 4 < 2 ^ 32
  ∧ Forall (λ o : sop Z, is_Some (unsharded o))
      [SSet t_new "a" (Some 1) Second; SAdd t_new "b" (Some 2) 0; SDelete "a"]
  ∧ ∃ sc0 sc : ShardedCache Z,
      NewShardedCache 4 (10 * Second) Second (λ _, t_new) = Ok sc0
      ∧ srun sc0 [SSet t_new "a" (Some 1) Second; SAdd t_new "b" (Some 2) 0;
                  SDelete "a"] = Ok sc
      ∧ ShardedCache_Get sc "b"
        = Ok (Get (run (New (10 * Second) 0 t_new).1
                     (omap unsharded
                        [SSet t_new "a" (Some 1) Second; SAdd t_new "b" (Some 2) 0;
                         SDelete "a"])) "b").
Proof.
  assert (H1 : 1 ≤ 4 < 2 ^ 32) by (split; [discriminate | reflexivity]).
  assert (H2 : Forall (λ o : sop Z, is_Some (unsharded o))
                 [SSet t_new "a" (Some 1) Second; SAdd t_new "b" (Some 2) 0;
                  SDelete "a"]).
  { repeat constructor; simpl; eauto. }
  split; [exact H1|]. split; [exact H2|].
  destruct (sharding_is_transparent (V:=Z) 4 (10 * Second) Second 0 (λ _, t_new) t_new
              [SSet t_new "a" (Some 1) Second; SAdd t_new "b" (Some 2) 0; SDelete "a"]
              H1 H2) as (sc0 & sc & Hn & Hr & Hk).
  exists sc0, sc. split; [exact Hn|]. split; [exact Hr|].
  exact (proj1 (Hk "b"%string)).
Defined.

Lemma tracked_entry_expires_witness :
  "c" ∈ expiringKeys cache_set_never
  ∧ entries cache_set_never !! "c"
    = Some {| Content := Some 3; ExpirationTimestamp := 1700000000 |}
  ∧ 1700000000 < time_Unix (t_new + 2 * Second)
  ∧ Get (removeExpiredEntries
           (run cache_set_never
              [OpSet t_new "d" (Some 4) Second; OpSweep t_new; OpDelete "d"])
           (t_new + 2 * Second)) "c" = (None, false).
Proof.
  assert (H1 : "c" ∈ expiringKeys cache_set_never).
  { change (expiringKeys cache_set_never) with ["c"%string]. apply list_elem_of_here. }
  assert (H2 : entries cache_set_never !! "c"
               = Some {| Content := Some 3; ExpirationTimestamp := 1700000000 |})
    by (vm_compute; reflexivity).
  assert (H3 : 1700000000 < time_Unix (t_new + 2 * Second)) by reflexivity.
  split; [exact H1|]. split; [exact H2|]. split; [exact H3|].
  apply (tracked_entry_expires cache_set_never "c"
           {| Content := Some 3; ExpirationTimestamp := 1700000000 |}
           [OpSet t_new "d" (Some 4) Second; OpSweep t_new; OpDelete "d"]
           (t_new + 2 * Second) H1 H2).
  - discriminate.
  - exact H3.
  - repeat constructor; simpl; try tauto; discriminate.
Defined.

Lemma full_scan_removes_expired_witness :
  map_to_list (entries cache_set_never) ≡ₚ map_to_list (entries cache_set_never)
  ∧ FullScan.entries
      (FullScan.removeExpiredEntries
         (FullScan.mkCache (10 * Second) Second (entries cache_set_never))
         (t_new + Second) (map_to_list (entries cache_set_never)))
    = filter (λ kv, ¬ expired (time_Unix (t_new + Second)) kv.2)
        (entries cache_set_never).
Proof.
  assert (H : map_to_list (entries cache_set_never)
              ≡ₚ map_to_list (entries cache_set_never)) by reflexivity.
  split; [exact H|].
  exact (proj1 (full_scan_removes_expired
                  (FullScan.mkCache (10 * Second) Second (entries cache_set_never))
                  (t_new + Second) (map_to_list (entries cache_set_never)) H)).
Defined.

Lemma tracked_sweep_against_full_scan_witness :
  map_to_list (entries cache_set_never) ≡ₚ map_to_list (entries cache_set_never)
  ∧ FullScan.entries
      (FullScan.removeExpiredEntries
         (FullScan.mkCache (expirationTime cache_set_never)
            (cleanupTime cache_set_never) (entries cache_set_never))
         (t_new + Second) (map_to_list (entries cache_set_never)))
    ⊆ entries (removeExpiredEntries cache_set_never (t_new + Second)).
Proof.
  assert (H : map_to_list (entries cache_set_never)
              ≡ₚ map_to_list (entries cache_set_never)) by reflexivity.
  split; [exact H|].
  exact (proj1 (tracked_sweep_against_full_scan cache_set_never (t_new + Second)
                  (map_to_list (entries cache_set_never)) H)).
Defined.

Lemma rescheduling_does_not_track_stored_entries_witness :
  nextCleanupTime (rrun (New (V:=Z) (10 * Second) Second t_new).1 [])
    < storedExpiration (10 * Second) t_new (4 * Second)
  ∧ Get (rrun (Set_ (rrun (New (V:=Z) (10 * Second) Second t_new).1 [])
                 t_new "b" (Some 2) (4 * Second))
           [ROp (OpSweep (t_new + Second)); RReschedule (t_new + Second);
            ROp (OpSweep (t_new + 5 * Second)); RReschedule (t_new + 5 * Second);
            ROp (OpSweep (t_new + 9 * Second))]) "b" = (Some 2, true).
Proof.
  assert (H : nextCleanupTime (rrun (New (V:=Z) (10 * Second) Second t_new).1 [])
              < storedExpiration (10 * Second) t_new (4 * Second))
    by reflexivity.
  split; [exact H|].
  refine (proj2 (proj2 (rescheduling_does_not_track_stored_entries (V:=Z)
            (10 * Second) Second t_new [] 
            [ROp (OpSweep (t_new + Second)); RReschedule (t_new + Second);
             ROp (OpSweep (t_new + 5 * Second)); RReschedule (t_new + 5 * Second);
             ROp (OpSweep (t_new + 9 * Second))]
            t_new "b" (Some 2) (4 * Second) H _))).
  repeat constructor; simpl; tauto.
Defined.
